(** * IoTABridge: the plant-monitoring video server (sample/server.py)

    A shallow embedding of the streaming pipeline of [server.py] and of the
    run-state flags it shares with [slackbot_plugin.py]: the viewer
    handshake, the page server, the broadcast relay, the frame sink and the
    capture loops with their cleanup path.  Definitions come first, the
    theorems about them follow. *)

From Stdlib Require Import ZArith QArith Lia Bool.
From Stdlib Require Import Strings.Ascii Strings.String Strings.Byte Numbers.DecimalString.
From stdpp Require Import base option list strings gmap.

Local Open Scope string_scope.
Local Open Scope list_scope.
Local Open Scope Z_scope.

(** Python's [bytes] and [str].  A [str] is kept as its UTF-8 text, so that
    [s.encode('utf-8')] is the passage from [string] to [bytes]. *)
Abbreviation bytes := (list byte).
Abbreviation str := string.

Definition encode_utf8 (s : str) : bytes := String.list_byte_of_string s.

(** * Configuration (server.py, lines 39-56) *)

Module Config.

Definition WIDTH : Z := 640.
Definition HEIGHT : Z := 480.
Definition FRAMERATE : Z := 24.
Definition HTTP_PORT : Z := 8082.
Definition WS_PORT : Z := 8084.
Definition COLOR : str := "#444".
Definition BGCOLOR : str := "#333".
Definition JSMPEG_MAGIC : bytes := encode_utf8 "jsmp".
Definition SCORE_THRESHOLD_UNDER : Q := 6 # 1.
Definition SCORE_THRESHOLD_UPPER : Q := 10 # 1.

Inductive comment := WATER_COMMENT | NOT_WATER_COMMENT | LOOK_COMMENT.

#[global] Instance comment_eq_dec : EqDecision comment.
Proof. solve_decision. Defined.

End Config.

(** * [struct.Struct('>4sHH')] *)

Module Struct.

Definition byte_of_Z (z : Z) : byte :=
  default x00 (Byte.of_N (Z.to_N (Z.land z 255))).

Definition Z_of_byte (b : byte) : Z := Z.of_N (Byte.to_N b).

(** ['4s']: the argument is cut or padded with zero bytes to four bytes. *)
Definition pack_4s (b : bytes) : bytes := take 4 (b ++ replicate 4 x00).

(** ['H'] under ['>']: an unsigned 16-bit integer, most significant byte
    first; [struct.error] (here [None]) outside [0, 65535]. *)
Definition pack_H (v : Z) : option bytes :=
  if (0 <=? v) && (v <=? 65535)
  then Some [byte_of_Z (Z.shiftr v 8); byte_of_Z v]
  else None.

Definition unpack_H (b : bytes) : option Z :=
  match b with
  | [hi; lo] => Some (Z.lor (Z.shiftl (Z_of_byte hi) 8) (Z_of_byte lo))
  | _ => None
  end.

(** [JSMPEG_HEADER.pack(magic, w, h)] with [JSMPEG_HEADER = Struct('>4sHH')]. *)
Definition JSMPEG_HEADER_pack (magic : bytes) (w h : Z) : option bytes :=
  bw ← pack_H w; bh ← pack_H h; Some (pack_4s magic ++ bw ++ bh).

Definition JSMPEG_HEADER_unpack (b : bytes) : option (bytes * Z * Z) :=
  if decide (length b = 8%nat)
  then w ← unpack_H (take 2 (drop 4 b));
       h ← unpack_H (drop 6 b);
       Some (take 4 b, w, h)
  else None.

End Struct.

(** * [string.Template.safe_substitute] *)

Module Template.

(** A value of the substitution dictionary; [str(v)] is what is pasted. *)
Inductive pyval := PyInt (z : Z) | PyStr (s : str).

Definition py_str (v : pyval) : str :=
  match v with
  | PyInt z => NilZero.string_of_int (Z.to_int z)
  | PyStr s => s
  end.

Definition in_range (lo hi c : ascii) : bool :=
  ((Ascii.N_of_ascii lo <=? Ascii.N_of_ascii c)
   && (Ascii.N_of_ascii c <=? Ascii.N_of_ascii hi))%N.

(** [[_a-z]] and [[_a-z0-9]] under [re.IGNORECASE] with the ASCII flag. *)
Definition is_id_start (c : ascii) : bool :=
  Ascii.eqb c "_" || in_range "a" "z" c || in_range "A" "Z" c.

Definition is_id_char (c : ascii) : bool :=
  is_id_start c || in_range "0" "9" c.

(** The longest run of identifier characters at the head of [s] (the greedy
    [[_a-z0-9]*]) and what follows it. *)
Fixpoint span_id (s : str) : str * str :=
  match s with
  | String c r =>
      if is_id_char c
      then let '(n, r') := span_id r in (String c n, r')
      else (EmptyString, s)
  | EmptyString => (EmptyString, EmptyString)
  end.

(** The matches of [Template.pattern] and the text between them. *)
Inductive token :=
| TLit (c : ascii)        (* a character outside every match *)
| TEscaped                (* [$$] *)
| TNamed (name : str)     (* [$identifier] *)
| TBraced (name : str)    (* [${identifier}] *)
| TInvalid.               (* any other [$] *)

(** One scan from the left, as [pattern.sub] does it: the alternatives of
    the pattern are tried in order at every [$].  Every step consumes at
    least one character, so [String.length s] steps are enough. *)
Fixpoint scan (fuel : nat) (s : str) : list token :=
  match fuel with
  | O => []
  | S fuel =>
      match s with
      | EmptyString => []
      | String c rest =>
          if Ascii.eqb c "$" then
            match rest with
            | EmptyString => [TInvalid]
            | String d rest' =>
                if Ascii.eqb d "$" then TEscaped :: scan fuel rest'
                else if is_id_start d then
                  let '(name, after) := span_id rest in
                  TNamed name :: scan fuel after
                else if Ascii.eqb d "{" then
                  match rest' with
                  | String e _ =>
                      if is_id_start e then
                        let '(name, after) := span_id rest' in
                        match after with
                        | String f after' =>
                            if Ascii.eqb f "}"
                            then TBraced name :: scan fuel after'
                            else TInvalid :: scan fuel rest
                        | EmptyString => TInvalid :: scan fuel rest
                        end
                      else TInvalid :: scan fuel rest
                  | EmptyString => TInvalid :: scan fuel rest
                  end
                else TInvalid :: scan fuel rest
            end
          else TLit c :: scan fuel rest
      end
  end.

Definition tokens (template : str) : list token :=
  scan (String.length template) template.

(** The text a token was read from ([mo.group()] for a match). *)
Definition source (t : token) : str :=
  match t with
  | TLit c => String c EmptyString
  | TEscaped => "$$"
  | TNamed n => "$" +:+ n
  | TBraced n => "${" +:+ n +:+ "}"
  | TInvalid => "$"
  end.

(** [convert] of [safe_substitute]: a known name gives [str(mapping[name])],
    an unknown one is left as written, [$$] gives the delimiter, an invalid
    [$] stays. *)
Definition convert (mapping : gmap string pyval) (t : token) : str :=
  match t with
  | TNamed n | TBraced n =>
      match mapping !! n with
      | Some v => py_str v
      | None => source t
      end
  | TEscaped => "$"
  | TInvalid => source t
  | TLit c => source t
  end.

Fixpoint concat_str (l : list str) : str :=
  match l with
  | [] => EmptyString
  | s :: l => s +:+ concat_str l
  end.

Definition safe_substitute (template : str) (mapping : gmap string pyval) : str :=
  concat_str (convert mapping <$> tokens template).

(** A text with a delimiter in it, and a text in which the pattern still
    finds a placeholder. *)
Fixpoint has_dollar (s : str) : bool :=
  match s with
  | EmptyString => false
  | String c r => Ascii.eqb c "$" || has_dollar r
  end.

Definition is_placeholder (t : token) : bool :=
  match t with
  | TNamed _ | TBraced _ => true
  | _ => false
  end.

Definition has_placeholder (s : str) : bool :=
  existsb is_placeholder (tokens s).

(** Plain text between the matches never holds the delimiter. *)
Definition plain (t : token) : Prop :=
  match t with TLit c => c ≠ "$"%char | _ => True end.

(** An identifier in full: [[_a-z][_a-z0-9]*]. *)
Fixpoint all_id_chars (s : str) : bool :=
  match s with
  | EmptyString => true
  | String c r => is_id_char c && all_id_chars r
  end.

Definition is_identifier (n : str) : bool :=
  match n with
  | EmptyString => false
  | String c r => is_id_start c && all_id_chars r
  end.

(** The text goes on with a character that an identifier would take in. *)
Definition continues (t : str) : bool :=
  match t with
  | EmptyString => false
  | String c _ => is_id_char c
  end.

(** A template as a writer puts it down: plain characters, [$$],
    [$name] and [${name}] with identifiers for names, no [$name] running
    into the text after it, no other [$]. *)
Fixpoint well_written (l : list token) : bool :=
  match l with
  | [] => true
  | t :: l =>
      match t with
      | TLit c => negb (Ascii.eqb c "$")
      | TEscaped => true
      | TNamed n =>
          is_identifier n && negb (continues (concat_str (source <$> l)))
      | TBraced n => is_identifier n
      | TInvalid => false
      end
      && well_written l
  end.

(** A token the mapping provides for: plain text, or a placeholder whose
    name is a key. *)
Definition provided (mapping : gmap string pyval) (t : token) : Prop :=
  match t with
  | TLit _ => True
  | TNamed n | TBraced n => is_Some (mapping !! n)
  | TEscaped | TInvalid => False
  end.

End Template.

(** * The page server: [StreamingHttpHandler] (server.py, lines 60-89) *)

Module Http.

(** A header value as the handler passes it: [send_header] formats it with
    [%s], so [len(content)] goes in as an integer. *)
Inductive header_value := HStr (s : str) | HInt (n : Z).

(** The calls a handler makes on [BaseHTTPRequestHandler]. *)
Inductive call :=
| send_response (code : Z)
| send_header (keyword : str) (value : header_value)
| end_headers
| wfile_write (b : bytes)
| send_error (code : Z) (message : str).

(** [StreamingHttpServer]: the two files read at start-up. *)
Record server := { index_template : str; jsmpg_content : str }.

Record request := { command : str; path : str }.

(** [dict(WS_PORT=WS_PORT, WIDTH=WIDTH, HEIGHT=HEIGHT, COLOR=COLOR,
    BGCOLOR=BGCOLOR)] *)
Definition page_mapping : gmap string Template.pyval :=
  <["WS_PORT" := Template.PyInt Config.WS_PORT]>
  (<["WIDTH" := Template.PyInt Config.WIDTH]>
  (<["HEIGHT" := Template.PyInt Config.HEIGHT]>
  (<["COLOR" := Template.PyStr Config.COLOR]>
  (<["BGCOLOR" := Template.PyStr Config.BGCOLOR]> ∅)))).

(** The [elif] chain of [do_GET] past the redirect: the content type and
    the text to serve, or [None] for the [else] branch. *)
Definition route (srv : server) (p : str) : option (str * str) :=
  if String.eqb p "/jsmpg.js" then
    Some ("application/javascript", jsmpg_content srv)
  else if String.eqb p "/index.html" then
    Some ("text/html; charset=utf-8",
          Template.safe_substitute (index_template srv) page_mapping)
  else None.

(** [do_GET]; [now] is [self.date_time_string(time())]. *)
Definition do_GET (srv : server) (now : str) (req : request) : list call :=
  if String.eqb (path req) "/" then
    [send_response 301;
     send_header "Location" (HStr "/index.html");
     end_headers]
  else
    match route srv (path req) with
    | None => [send_error 404 "File not found"]
    | Some (content_type, content) =>
        let content := encode_utf8 content in
        [send_response 200;
         send_header "Content-Type" (HStr content_type);
         send_header "Content-Length" (HInt (Z.of_nat (length content)));
         send_header "Last-Modified" (HStr now);
         end_headers]
        ++ (if String.eqb (command req) "GET" then [wfile_write content] else [])
    end.

Definition do_HEAD := do_GET.

(** ** What [http.server] makes of these calls

    [send_response] also sends [Server] and [Date]; [send_error] sends the
    status, [Connection: close], and for a code that carries a body the
    error page with its type and length, written unless the command is
    [HEAD].  The server's version string, the date and the text of the
    error page are left open. *)

Record response := { status : Z; headers : list (str * str); body : bytes }.

(** The decimal text of a length, as a [Content-Length] carries it. *)
Definition decimal (n : nat) : str :=
  NilZero.string_of_int (Z.to_int (Z.of_nat n)).

Section Library.

Variables (version_string date_time_string : str).
Variable error_page : Z -> str -> str.

Definition header_text (v : header_value) : str :=
  match v with
  | HStr s => s
  | HInt n => NilZero.string_of_int (Z.to_int n)
  end.

Definition carries_body (code : Z) : bool :=
  (200 <=? code) && negb ((code =? 204) || (code =? 205) || (code =? 304)).

Definition error_calls (cmd : str) (code : Z) (message : str) : list call :=
  if carries_body code then
    let body := encode_utf8 (error_page code message) in
    [send_response code;
     send_header "Connection" (HStr "close");
     send_header "Content-Type" (HStr "text/html;charset=utf-8");
     send_header "Content-Length" (HStr (decimal (length body)));
     end_headers]
    ++ (if negb (String.eqb cmd "HEAD") && negb (bool_decide (body = []))
        then [wfile_write body] else [])
  else
    [send_response code; send_header "Connection" (HStr "close"); end_headers].

Definition apply_call (r : response) (c : call) : response :=
  match c with
  | send_response code =>
      {| status := code;
         headers := headers r ++ [("Server", version_string);
                                  ("Date", date_time_string)];
         body := body r |}
  | send_header k v =>
      {| status := status r;
         headers := headers r ++ [(k, header_text v)];
         body := body r |}
  | end_headers => r
  | wfile_write b =>
      {| status := status r; headers := headers r; body := body r ++ b |}
  | send_error _ _ => r
  end.

Definition expand (cmd : str) (c : call) : list call :=
  match c with
  | send_error code message => error_calls cmd code message
  | _ => [c]
  end.

Definition respond (cmd : str) (cs : list call) : response :=
  foldl apply_call {| status := 0; headers := []; body := [] |}
        (cs ≫= expand cmd).

(** The response to one request, [GET] or [HEAD]. *)
Definition handle (srv : server) (now : str) (req : request) : response :=
  respond (command req) (do_GET srv now req).

End Library.

(** The value of the first header named [k]. *)
Fixpoint assoc (k : str) (l : list (str * str)) : option str :=
  match l with
  | [] => None
  | (k', v) :: l => if String.eqb k' k then Some v else assoc k l
  end.

Definition header (k : str) (r : response) : option str := assoc k (headers r).

(** Two servers to run the statements on: the page of the first has a
    placeholder the handler knows nothing of; the page of the second names
    configured values only, once behind an escaped delimiter. *)
Definition sample_server : server :=
  {| index_template :=
       "<title>${TITLE}</title><canvas width=${WIDTH} height=$HEIGHT>";
     jsmpg_content := "var jsmpeg;" |}.

Definition escaping_server : server :=
  {| index_template := "<!-- $${WIDTH} is the width --><canvas width=${WIDTH}>";
     jsmpg_content := "var jsmpeg;" |}.

Definition sample_error_page (code : Z) (message : str) : str :=
  "<p>Message: " +:+ message +:+ ".</p>".

End Http.

(** * The socket server's side: ws4py's websockets and their manager

    ws4py is a library the server imports.  What the server relies on is
    kept here: [send] raises on a terminated websocket or a closed socket;
    the manager's [add] runs the [opened] hook of the handler class and then
    registers the websocket under its file descriptor; [broadcast] goes
    through the registered websockets, skips the terminated ones and
    swallows whatever a [send] raises. *)

Module Ws4py.

Inductive message := Binary (payload : bytes) | Text (payload : bytes).

Record WebSocket := {
  terminated : bool;
  sock_open : bool;            (* the peer's socket still takes writes *)
  wire : list message          (* what has been written to it, oldest first *)
}.

Definition fresh : WebSocket :=
  {| terminated := false; sock_open := true; wire := [] |}.

(** [ws.send(payload, binary)]; [None] when it raises. *)
Definition send (payload : bytes) (binary : bool) (ws : WebSocket)
  : option WebSocket :=
  if terminated ws || negb (sock_open ws) then None
  else Some {| terminated := terminated ws;
               sock_open := sock_open ws;
               wire := wire ws ++ [if binary then Binary payload
                                   else Text payload] |}.

(** [manager.broadcast(message, binary)] *)
Definition broadcast (payload : bytes) (binary : bool)
    (websockets : gmap nat WebSocket) : gmap nat WebSocket :=
  (λ ws, if terminated ws then ws
         else default ws (send payload binary ws)) <$> websockets.

(** [manager.add(websocket)] for a connection just accepted on [fd]; an
    [opened] hook that raises leaves the registry as it was. *)
Definition add (opened : WebSocket -> option WebSocket) (fd : nat)
    (websockets : gmap nat WebSocket) : gmap nat WebSocket :=
  match opened fresh with
  | Some ws => <[fd := ws]> websockets
  | None => websockets
  end.

(** What the socket server's threads do to the registry while the relay
    runs. *)
Inductive registry_event :=
| Accept (fd : nat)          (* a viewer connects *)
| PeerClosed (fd : nat)      (* its socket closes: writes to it fail *)
| Reap (fd : nat).           (* the manager terminates and forgets it *)

Definition close_sock (ws : WebSocket) : WebSocket :=
  {| terminated := terminated ws; sock_open := false; wire := wire ws |}.

Definition registry_step (opened : WebSocket -> option WebSocket)
    (e : registry_event) (websockets : gmap nat WebSocket)
  : gmap nat WebSocket :=
  match e with
  | Accept fd => add opened fd websockets
  | PeerClosed fd => alter close_sock fd websockets
  | Reap fd => delete fd websockets
  end.

Definition touches (fd : nat) (e : registry_event) : bool :=
  match e with
  | Accept fd' | PeerClosed fd' | Reap fd' => bool_decide (fd' = fd)
  end.

End Ws4py.

(** * [StreamingWebSocket] (server.py, lines 102-104) *)

Module StreamingWebSocket.

(** [opened]: send the packed header as one binary message.  [None] when
    packing or sending raises. *)
Definition opened (ws : Ws4py.WebSocket) : option Ws4py.WebSocket :=
  hdr ← Struct.JSMPEG_HEADER_pack Config.JSMPEG_MAGIC Config.WIDTH Config.HEIGHT;
  Ws4py.send hdr true ws.

End StreamingWebSocket.

(** * [BroadcastThread.run] (server.py, lines 139-148) *)

Module Relay.

(** [stdout.read1(n)] on a pipe that holds [avail]: at most [n] bytes from
    its head; the others stay in the pipe.  An empty pipe at the moment the
    read returns is the end of the stream. *)
Definition read1 (n : nat) (avail : bytes) : bytes * bytes :=
  (take n avail, drop n avail).

Section Run.

(** The registry, its [broadcast] ([None]: it raised) and what other
    threads do to it. *)
Context {M other : Type}.
Variable broadcast : bytes -> bool -> M -> option M.
Variable act : other -> M -> M.

(** The relay's view of the world.  [chunks] records the buffers handed to
    [broadcast], oldest first. *)
Record state := {
  pipe : bytes;
  stdout_closed : bool;
  manager : M;
  chunks : list bytes
}.

(** One entry of a schedule: a pass of the loop, given the bytes the
    transcoder has added to the pipe by the time [read1] returns and what
    [poll()] answers then; or a step of another thread. *)
Inductive event :=
| Pass (arrived : bytes) (returncode : option Z)
| Other (o : other).

Inductive outcome :=
| Running (s : state)      (* the schedule is over, the loop is not *)
| Finished (s : state)     (* [break], then [finally] *)
| Raised (s : state).      (* [broadcast] raised, [finally] ran *)

Definition close (s : state) : state :=
  {| pipe := pipe s; stdout_closed := true;
     manager := manager s; chunks := chunks s |}.

Fixpoint run (schedule : list event) (s : state) : outcome :=
  match schedule with
  | [] => Running s
  | Other o :: schedule =>
      run schedule {| pipe := pipe s; stdout_closed := stdout_closed s;
                      manager := act o (manager s); chunks := chunks s |}
  | Pass arrived returncode :: schedule =>
      let '(buf, rest) := read1 (Z.to_nat 32768) (pipe s ++ arrived) in
      if negb (bool_decide (buf = [])) then
        match broadcast buf true (manager s) with
        | Some m =>
            run schedule {| pipe := rest; stdout_closed := stdout_closed s;
                            manager := m; chunks := chunks s ++ [buf] |}
        | None =>
            Raised (close {| pipe := rest; stdout_closed := stdout_closed s;
                             manager := manager s; chunks := chunks s |})
        end
      else if bool_decide (returncode ≠ None) then Finished (close s)
      else run schedule s
  end.

Definition final (o : outcome) : state :=
  match o with Running s | Finished s | Raised s => s end.


End Run.

(** A buffer as the loop hands it to [broadcast]: not empty, at most 32768
    bytes. *)
Definition chunk_sized (c : bytes) : Prop :=
  (0 < length c ≤ Z.to_nat 32768)%nat.

Arguments state : clear implicits.
Arguments event : clear implicits.
Arguments outcome : clear implicits.

(** The relay's own progress, the registry left out: the pipe, the handle,
    the chunks read and the way out of the loop. *)
Definition progress_of_state {M} (s : state M) : state () :=
  {| pipe := pipe s; stdout_closed := stdout_closed s;
     manager := (); chunks := chunks s |}.

Definition progress {M} (o : outcome M) : outcome () :=
  match o with
  | Running s => Running (progress_of_state s)
  | Finished s => Finished (progress_of_state s)
  | Raised s => Raised (progress_of_state s)
  end.

(** The relay of the server: the registry is ws4py's, new viewers are
    [StreamingWebSocket]s. *)
Abbreviation registry := (gmap nat Ws4py.WebSocket).

Definition serve (schedule : list (event Ws4py.registry_event))
    (s : state registry) : outcome registry :=
  run (λ buf binary m, Some (Ws4py.broadcast buf binary m))
      (Ws4py.registry_step StreamingWebSocket.opened) schedule s.

Definition start (websockets : registry) : state registry :=
  {| pipe := []; stdout_closed := false;
     manager := websockets; chunks := [] |}.

(** A viewer that takes writes. *)
Definition connected (ws : Ws4py.WebSocket) : Prop :=
  Ws4py.terminated ws = false ∧ Ws4py.sock_open ws = true.

(** An entry of the schedule that leaves the viewer on [fd] alone. *)
Definition quiet (fd : nat) (e : event Ws4py.registry_event) : Prop :=
  match e with
  | Pass _ _ => True
  | Other o => Ws4py.touches fd o = false
  end.

(** The handshake of the configured stream, byte by byte: [jsmp], 640 and
    480 on two bytes each, high byte first. *)
Definition handshake : bytes :=
  [x6a; x73; x6d; x70; x02; x80; x01; xe0].

(** What a registered viewer has been written: the handshake, then chunks
    of the relay in their order. *)
Definition greeted (s : state registry) : Prop :=
  ∀ fd ws, manager s !! fd = Some ws ->
    ∃ cs, Ws4py.wire ws = Ws4py.Binary handshake :: (Ws4py.Binary <$> cs)
          ∧ cs `sublist_of` chunks s.

(** A schedule and a registry to run the statements on: a viewer connects
    between two chunks, another one's socket closes, the transcoder exits;
    of the three viewers registered at the start one has a closed socket. *)
Definition sample_schedule : list (event Ws4py.registry_event) :=
  [Pass [x01; x02] None;
   Other (Ws4py.Accept 5);
   Pass [x03] None;
   Other (Ws4py.PeerClosed 6);
   Pass [] None;
   Pass [x04; x05; x06] (Some 0);
   Pass [] (Some 0);
   Pass [x07] None].

Definition sample_registry : registry :=
  <[3%nat := Ws4py.fresh]>
  (<[4%nat := Ws4py.close_sock Ws4py.fresh]>
  (<[6%nat := Ws4py.fresh]> ∅)).

End Relay.

(** * The frame sink: [BroadcastOutput] (server.py, lines 107-130) *)

Module Sink.

(** The transcoder as a child process.  It reads its input to the end:
    [exits_after] is the time it takes to terminate once its input is
    closed, [None] for a process that never terminates. *)
Record Popen := {
  stdin : bytes;               (* what has been written to its input *)
  stdin_closed : bool;
  exits_after : option nat
}.

(** When the child is gone, counted from the call under way. *)
Definition exit_time (p : Popen) : option nat :=
  if stdin_closed p then exits_after p else None.

(** How far a call has come after some time. *)
Inductive progress :=
| Blocked                      (* still inside the call *)
| Returned
| TimeoutExpired.              (* [subprocess.TimeoutExpired] raised *)

(** [Popen.wait(timeout)], seen [t] time units after the call: without a
    timeout it returns once the child has exited; with one it raises
    [TimeoutExpired] when the timeout has passed with the child alive. *)
Definition wait (timeout : option nat) (p : Popen) (t : nat) : progress :=
  match exit_time p, timeout with
  | Some e, None => if (e <=? t)%nat then Returned else Blocked
  | Some e, Some d =>
      if (e <=? d)%nat then (if (e <=? t)%nat then Returned else Blocked)
      else (if (d <=? t)%nat then TimeoutExpired else Blocked)
  | None, None => Blocked
  | None, Some d => if (d <=? t)%nat then TimeoutExpired else Blocked
  end.

(** The calls [flush] makes, in order. *)
Inductive action :=
| print (line : str)
| stdin_close
| converter_wait (timeout : option nat).

(** [write]: forward the frame to the converter's input. *)
Definition write (b : bytes) (p : Popen) : Popen :=
  {| stdin := stdin p ++ b; stdin_closed := stdin_closed p;
     exits_after := exits_after p |}.

(** [flush()], seen [t] time units after the call: the calls made so far,
    the converter, and how far the call has come. *)
Definition flush (p : Popen) (t : nat) : list action * Popen * progress :=
  let p' := {| stdin := stdin p; stdin_closed := true;
               exits_after := exits_after p |} in
  ([print "Waiting for background conversion process to exit";
    stdin_close;
    converter_wait None],
   p', wait None p' t).

(** A converter that does not exit. *)
Definition hung : Popen :=
  {| stdin := []; stdin_closed := false; exits_after := None |}.

End Sink.

(** * The run-state flags and the capture loops (server.py, lines 177-506) *)

Module Control.

Import Config.

Inductive thread := websocket_thread | http_thread | broadcast_thread.
Inductive server := http_server | websocket_server.

(** What a run does to the outside, and the assignments to the flags. *)
Inductive effect :=
| sendSlack (c : comment)
| look_False                   (* [look = False] *)
| water_False                  (* [water = False] *)
| whileMove_True               (* [whileMove = True] *)
| start_recording
| thread_start (t : thread)
| stop_recording
| thread_join (t : thread)
| server_shutdown (s : server).

#[global] Instance thread_eq_dec : EqDecision thread.
Proof. solve_decision. Defined.
#[global] Instance server_eq_dec : EqDecision server.
Proof. solve_decision. Defined.
#[global] Instance effect_eq_dec : EqDecision effect.
Proof. solve_decision. Defined.

(** The module-level flags, with the trace of effects so far. *)
Record state := {
  whileMove : bool;
  water : bool;
  look : bool;
  trace : list effect
}.

Definition initial : state :=
  {| whileMove := true; water := false; look := false; trace := [] |}.

Definition setWater (status : bool) (s : state) : state :=
  {| whileMove := whileMove s; water := status; look := look s;
     trace := trace s |}.

Definition setLook (status : bool) (s : state) : state :=
  {| whileMove := whileMove s; water := water s; look := status;
     trace := trace s |}.

Definition setWhileMove (status : bool) (s : state) : state :=
  {| whileMove := status; water := water s; look := look s;
     trace := trace s |}.

Definition getWater (s : state) : bool := water s.
Definition getLook (s : state) : bool := look s.
Definition getWhileMove (s : state) : bool := whileMove s.

Definition emit (l : list effect) (s : state) : state :=
  {| whileMove := whileMove s; water := water s; look := look s;
     trace := trace s ++ l |}.

(** ** The score window; scores are taken as rationals *)

(** The code computes on float64: [np.mean] and the bounds [item - 0.2],
    [item + 0.2] round, the rationals here do not, so a comparison can go
    the other way where a mean or a bound rounds.  The statements about
    the loops either hold whichever way [dry] and [near] go, or are made
    on scores where float64 is exact. *)

Record window := { mean_NO : nat; score_mean : list Q }.

Definition zeros : window := {| mean_NO := 0; score_mean := replicate 10 0%Q |}.

(** [score_mean[mean_NO] = score[0]; mean_NO += 1; if mean_NO ==
    len(score_mean): mean_NO = 0] *)
Definition record_score (score : Q) (w : window) : window :=
  let sm := <[mean_NO w := score]> (score_mean w) in
  let n := S (mean_NO w) in
  {| mean_NO := if (n =? length sm)%nat then 0%nat else n; score_mean := sm |}.

Definition np_mean (l : list Q) : Q :=
  (foldr Qplus 0 l / inject_Z (Z.of_nat (length l)))%Q.

Definition Qlt_bool (a b : Q) : bool := negb (Qle_bool b a).

(** [SCORE_THRESHOLD_UNDER < np.mean(score_mean) < SCORE_THRESHOLD_UPPER] *)
Definition dry (w : window) : bool :=
  Qlt_bool SCORE_THRESHOLD_UNDER (np_mean (score_mean w))
  && Qlt_bool (np_mean (score_mean w)) SCORE_THRESHOLD_UPPER.

(** ** [single] (lines 403-465): one check with a fresh window *)

Definition single (score : Q) (s : state) : state :=
  let w := record_score score zeros in
  if look s then
    setLook false (emit [sendSlack LOOK_COMMENT; look_False] s)
  else if water s then
    let s := if dry w then emit [sendSlack WATER_COMMENT] s
             else emit [sendSlack NOT_WATER_COMMENT] s in
    setWater false (emit [water_False] s)
  else s.

(** What one pass over the intent flags does, as [single] and the loop of
    [autoLook] have it: a set [look] is answered and cleared, [water] left
    as it is; with [look] unset a set [water] is answered, by one of the
    two comments, and cleared; with neither set nothing happens. *)
Definition answers_one_intent (s s' : state) : Prop :=
  whileMove s' = whileMove s
  ∧ (look s = true ->
       look s' = false ∧ water s' = water s
       ∧ trace s' = trace s ++ [sendSlack LOOK_COMMENT; look_False])
  ∧ (look s = false -> water s = true ->
       look s' = false ∧ water s' = false
       ∧ ∃ c, (c = WATER_COMMENT ∨ c = NOT_WATER_COMMENT)
              ∧ trace s' = trace s ++ [sendSlack c; water_False])
  ∧ (look s = false -> water s = false -> s' = s).

(** ** The body of the loop of [autoLook] (lines 334-380) *)

Definition autoLook_body (score : Q) (w : window) (s : state)
  : window * state :=
  let w := record_score score w in
  (w,
   if look s then
     setLook false (emit [sendSlack LOOK_COMMENT; look_False] s)
   else if water s then
     let s := if dry w then emit [sendSlack WATER_COMMENT] s
              else emit [sendSlack NOT_WATER_COMMENT] s in
     setWater false (emit [water_False] s)
   else s).

(** ** The body of the loop of [main] (lines 223-275) *)

Record locals := { win : window; scorelist : list Q; scorecheck : bool }.

Definition locals0 : locals :=
  {| win := zeros; scorelist := []; scorecheck := true |}.

(** [item - 0.2 < nowscore < item + 0.2] *)
Definition near (nowscore item : Q) : bool :=
  Qlt_bool (item - (2 # 10)) nowscore && Qlt_bool nowscore (item + (2 # 10)).

Definition main_body (score : Q) (l : locals) (s : state) : locals * state :=
  let w := record_score score (win l) in
  let nowscore := np_mean (score_mean w) in
  let check := if forallb (near nowscore) (scorelist l) then scorecheck l
               else false in
  let sl := if (0 <? length (scorelist l))%nat && (length (scorelist l) <? 5)%nat
            then drop 1 (scorelist l) else scorelist l in
  let sl := sl ++ [nowscore] in
  let s :=
    if check then
      let s := if look s
               then setLook false (emit [sendSlack LOOK_COMMENT; look_False] s)
               else s in
      if whileMove s && dry w then emit [sendSlack WATER_COMMENT] s else s
    else s in
  ({| win := w; scorelist := sl; scorecheck := true |}, s).

(** ** The loop and the [try ... except KeyboardInterrupt ... finally] *)

(** A call of the chat plug-in on the control surface. *)
Inductive call :=
| call_setWhileMove (status : bool)
| call_setWater (status : bool)
| call_setLook (status : bool).

Definition apply_call (c : call) (s : state) : state :=
  match c with
  | call_setWhileMove b => setWhileMove b s
  | call_setWater b => setWater b s
  | call_setLook b => setLook b s
  end.

(** What happens while a run is in its loop: a call from the chat thread
    between two iterations, an iteration with the score the model gives, a
    [KeyboardInterrupt], or any other exception raised in the body. *)
Inductive tick :=
| External (c : call)
| Capture (score : Q)
| Interrupt
| Fault.

Inductive loop_end {L : Type} :=
| Looping (l : L) (s : state)    (* the schedule is over, the loop is not *)
| Left (s : state)               (* [whileMove] was found false *)
| Interrupted (s : state)
| Faulted (s : state).
Arguments loop_end : clear implicits.

Section Loop.

Context {L : Type}.
Variable body : Q -> L -> state -> L * state.

(** [while whileMove: body] *)
Fixpoint loop (schedule : list tick) (l : L) (s : state) : loop_end L :=
  match schedule with
  | [] => if whileMove s then Looping l s else Left s
  | External c :: schedule => loop schedule l (apply_call c s)
  | Capture score :: schedule =>
      if whileMove s
      then let '(l', s') := body score l s in loop schedule l' s'
      else Left s
  | Interrupt :: _ => Interrupted s
  | Fault :: _ => Faulted s
  end.

End Loop.

(** The steps of the [finally] block after [whileMove = True], in order. *)
Definition cleanup : list effect :=
  [stop_recording;
   thread_join broadcast_thread;
   server_shutdown http_server;
   server_shutdown websocket_server;
   thread_join http_thread;
   thread_join websocket_thread].

(** The steps in sequence; [fails] tells which of them raise.  A step that
    raises ends the block: the result holds the steps called and whether
    one raised. *)
Fixpoint attempt (fails : effect -> bool) (steps : list effect)
  : list effect * bool :=
  match steps with
  | [] => ([], false)
  | e :: steps =>
      if fails e then ([e], true)
      else let '(done, raised) := attempt fails steps in (e :: done, raised)
  end.

(** How a run ends: the flags and the trace, and whether an exception
    leaves the function. *)
Inductive result :=
| StillRunning (s : state)
| Ended (s : state) (propagates : bool).

Definition finally (fails : effect -> bool) (pending : bool) (s : state)
  : result :=
  let s := setWhileMove true (emit [whileMove_True] s) in
  let '(done, raised) := attempt fails cleanup in
  Ended (emit done s) (raised || pending).

Definition startup : list effect :=
  [start_recording;
   thread_start websocket_thread;
   thread_start http_thread;
   thread_start broadcast_thread].

Definition finish {L} (fails : effect -> bool) (e : loop_end L) : result :=
  match e with
  | Looping _ s => StillRunning s
  | Left s | Interrupted s => finally fails false s
  | Faulted s => finally fails true s
  end.

(** The threads a trace starts, and those it joins, in order. *)
Definition started (l : list effect) : list thread :=
  l ≫= λ e, match e with thread_start t => [t] | _ => [] end.

Definition joined (l : list effect) : list thread :=
  l ≫= λ e, match e with thread_join t => [t] | _ => [] end.

(** [main] (lines 181-294) *)
Definition main (fails : effect -> bool) (schedule : list tick) (s : state)
  : result :=
  finish fails (loop main_body schedule locals0 (emit startup s)).

(** [autoLook] (lines 296-401) *)
Definition autoLook (fails : effect -> bool) (schedule : list tick)
    (s : state) : result :=
  finish fails (loop autoLook_body schedule zeros (emit startup s)).

End Control.

(** * Counting over traces and schedules *)

Module Tally.

Import Config Control.

(** The window is well formed: ten slots, the next one to fill among
    them. *)
Definition window_ok (w : window) : Prop :=
  length (score_mean w) = 10%nat ∧ (mean_NO w < 10)%nat.

(** The window after the scores of successive iterations, oldest first. *)
Definition record_all (scores : list Q) (w : window) : window :=
  foldl (λ w score, record_score score w) w scores.

(** The scores of the iterations of a schedule, oldest first. *)
Definition captures (schedule : list tick) : list Q :=
  schedule ≫= λ t, match t with Capture score => [score] | _ => [] end.

Definition is_notification (e : effect) : bool :=
  match e with sendSlack _ => true | _ => false end.

(** The number of calls of [sendSlack] in a trace. *)
Definition notifications (l : list effect) : nat :=
  length (filter (λ e, is_notification e = true) l).

Definition is_request (t : tick) : bool :=
  match t with
  | External (call_setWater true) | External (call_setLook true) => true
  | _ => false
  end.

(** The number of times the chat thread sets an intent over a schedule. *)
Definition requests (schedule : list tick) : nat :=
  length (filter (λ t, is_request t = true) schedule).

(** The intents not answered yet. *)
Definition pending (s : state) : nat :=
  ((if look s then 1 else 0) + (if water s then 1 else 0))%nat.

(** The flags and the trace a run has reached. *)
Definition reached (r : result) : state :=
  match r with StillRunning s | Ended s _ => s end.

(** The locals and the flags a loop has come to. *)
Definition locals_of {L} (d : L) (e : loop_end L) : L :=
  match e with Looping l _ => l | _ => d end.

Definition state_of {L} (e : loop_end L) : state :=
  match e with Looping _ s | Left s | Interrupted s | Faulted s => s end.

(** The locals of [main] after iterations with the given scores; they do
    not depend on the flags. *)
Definition main_locals (scores : list Q) (l : locals) : locals :=
  foldl (λ l score, (main_body score l initial).1) l scores.

(** The iteration finds the mean steady and the soil dry. *)
Definition steady_and_dry (score : Q) (l : locals) : bool :=
  scorecheck l
  && forallb (near (np_mean (score_mean (record_score score (win l)))))
       (scorelist l)
  && dry (record_score score (win l)).

Fixpoint all_steady_and_dry (scores : list Q) (l : locals) : bool :=
  match scores with
  | [] => true
  | score :: scores =>
      steady_and_dry score l
      && all_steady_and_dry scores (main_body score l initial).1
  end.

(** Ten iterations over which the mean stays at 7: one score of 70 and
    nine of 0; and a schedule that repeats them [n] times. *)
Definition dry_cycle : list Q := (70 # 1) :: replicate 9 0%Q.

Fixpoint dry_run (n : nat) : list tick :=
  match n with
  | O => []
  | S n => (Capture <$> dry_cycle) ++ dry_run n
  end.

(** An effect [main] is never seen to have: the comment that the soil is
    wet enough, and an assignment to [water]. *)
Definition foreign_to_main (e : effect) : bool :=
  match e with
  | sendSlack NOT_WATER_COMMENT | water_False => true
  | _ => false
  end.

End Tally.

(** * The chat plug-in (slackbot_plugin.py)

    A handler is taken at the level of what it does: the reply it sends,
    what it assigns to the two mode flags, and the calls it makes on
    [server], in order.  [server.main()] and [server.autoLook()] return
    when their loop is over; other messages are handled meanwhile. *)

Module Plugin.

(** [waterWork] and [notWaterWork] (lines 4-5). *)
Record modes := { waterWork : bool; notWaterWork : bool }.

Definition idle : modes := {| waterWork := false; notWaterWork := false |}.

(** The replies, by the line that sends them. *)
Inductive reply :=
| water_mode_already_on          (* line 15 *)
| normal_mode_on_no_second_start (* line 17 *)
| water_mode_starts              (* line 19 *)
| water_mode_on_no_second_start  (* line 31 *)
| normal_mode_already_on         (* line 33 *)
| normal_mode_starts             (* line 35 *)
| water_mode_stops               (* line 47 *)
| normal_mode_stops              (* line 51 *)
| no_mode_on                     (* line 55 *)
| watering_is_mine               (* line 65 *)
| checking_soil                  (* line 67 *)
| checking_now                   (* line 81 *)
| good_morning                   (* line 95 *)
| good_afternoon                 (* line 102 *)
| good_evening                   (* line 109 *)
| good_night                     (* line 118 *)
| here                           (* line 124 *)
| recommendation.                (* line 130 *)

Inductive server_call :=
| server_main
| server_autoLook
| server_single
| server_setWhileMove (status : bool)
| server_setWater (status : bool)
| server_setLook (status : bool).

#[global] Instance server_call_eq_dec : EqDecision server_call.
Proof. solve_decision. Defined.

(** What a handler has done when it returns. *)
Record handled := {
  modes_after : modes;
  replies : list reply;
  calls : list server_call
}.

(** [monitoringWater] (lines 10-21) *)
Definition monitoringWater (m : modes) : handled :=
  if waterWork m then
    {| modes_after := m; replies := [water_mode_already_on]; calls := [] |}
  else if notWaterWork m then
    {| modes_after := m; replies := [normal_mode_on_no_second_start];
       calls := [] |}
  else
    {| modes_after := {| waterWork := true; notWaterWork := notWaterWork m |};
       replies := [water_mode_starts];
       calls := [server_main] |}.

(** [monitoringNotWater] (lines 26-37) *)
Definition monitoringNotWater (m : modes) : handled :=
  if waterWork m then
    {| modes_after := m; replies := [water_mode_on_no_second_start];
       calls := [] |}
  else if notWaterWork m then
    {| modes_after := m; replies := [normal_mode_already_on]; calls := [] |}
  else
    {| modes_after := {| waterWork := waterWork m; notWaterWork := true |};
       replies := [normal_mode_starts];
       calls := [server_autoLook] |}.

(** [monitoringFinish] (lines 42-55) *)
Definition monitoringFinish (m : modes) : handled :=
  if waterWork m then
    {| modes_after := {| waterWork := false; notWaterWork := notWaterWork m |};
       replies := [water_mode_stops];
       calls := [server_setWhileMove false] |}
  else if notWaterWork m then
    {| modes_after := {| waterWork := waterWork m; notWaterWork := false |};
       replies := [normal_mode_stops];
       calls := [server_setWhileMove false] |}
  else
    {| modes_after := m; replies := [no_mode_on]; calls := [] |}.

(** [water] (lines 60-72) *)
Definition water (m : modes) : handled :=
  if waterWork m then
    {| modes_after := m; replies := [watering_is_mine]; calls := [] |}
  else
    {| modes_after := m;
       replies := [checking_soil];
       calls := if notWaterWork m then [server_setWater true]
                else [server_setWater true; server_single] |}.

(** [check] (lines 77-88): two [if]s, the second with the [else]. *)
Definition check (m : modes) : handled :=
  {| modes_after := m;
     replies := [checking_now];
     calls := (if waterWork m then [server_setLook true] else [])
              ++ (if notWaterWork m then [server_setLook true]
                  else [server_setLook true; server_single]) |}.

(** The handlers that only reply (lines 93-130). *)
Definition greeting (r : reply) (m : modes) : handled :=
  {| modes_after := m; replies := [r]; calls := [] |}.

Definition morning := greeting good_morning.
Definition after := greeting good_afternoon.
Definition night := greeting good_evening.
Definition sleep := greeting good_night.
Definition there := greeting here.
Definition akashiya := greeting recommendation.

(** A message, by the handler it reaches. *)
Inductive handler :=
| on_monitoringWater | on_monitoringNotWater | on_monitoringFinish
| on_water | on_check
| on_morning | on_after | on_night | on_sleep | on_there | on_akashiya.

Definition handle (h : handler) : modes -> handled :=
  match h with
  | on_monitoringWater => monitoringWater
  | on_monitoringNotWater => monitoringNotWater
  | on_monitoringFinish => monitoringFinish
  | on_water => water
  | on_check => check
  | on_morning => morning
  | on_after => after
  | on_night => night
  | on_sleep => sleep
  | on_there => there
  | on_akashiya => akashiya
  end.

(** A conversation: the messages in the order their handlers run. *)
Fixpoint converse (hs : list handler) (m : modes) : handled :=
  match hs with
  | [] => {| modes_after := m; replies := []; calls := [] |}
  | h :: hs =>
      let d := handle h m in
      let d' := converse hs (modes_after d) in
      {| modes_after := modes_after d';
         replies := replies d ++ replies d';
         calls := calls d ++ calls d' |}
  end.

(** The calls that start a loop and the one that asks it to stop, read
    against whether a loop is on: a start with a loop on, or a stop with
    none, is out of step. *)
Fixpoint in_step (loop_on : bool) (l : list server_call) : bool :=
  match l with
  | [] => true
  | (server_main | server_autoLook) :: l =>
      if loop_on then false else in_step true l
  | server_setWhileMove false :: l =>
      if loop_on then in_step false l else false
  | _ :: l => in_step loop_on l
  end.

End Plugin.

(** * Theorems *)

(** ** The handshake record *)

Section Handshake.

Import Struct.

Lemma byte_of_Z_of_byte (z : Z) : Z_of_byte (byte_of_Z z) = Z.land z 255.
Proof.
  unfold Z_of_byte, byte_of_Z.
  assert (Hr : 0 <= Z.land z 255 < 256).
  { change 255 with (Z.ones 8). rewrite Z.land_ones by lia.
    apply Z.mod_pos_bound. lia. }
  destruct (Byte.of_N (Z.to_N (Z.land z 255))) as [b|] eqn:Hb.
  - simpl. apply Byte.to_of_N in Hb. rewrite Hb. lia.
  - apply Byte.of_N_None_iff in Hb. lia.
Qed.

Lemma two_bytes_of (v : Z) :
  0 <= v <= 65535 ->
  Z.lor (Z.shiftl (Z.land (Z.shiftr v 8) 255) 8) (Z.land v 255) = v.
Proof.
  intros Hv. apply Z.bits_inj'. intros n Hn.
  rewrite Z.lor_spec, Z.shiftl_spec, !Z.land_spec by lia.
  change 255 with (Z.ones 8).
  destruct (Z.lt_ge_cases n 8) as [Hlt|Hge].
  - rewrite (Z.testbit_neg_r _ (n - 8)) by lia.
    rewrite (Z.ones_spec_low 8 n) by lia.
    simpl. apply andb_true_r.
  - rewrite (Z.ones_spec_high 8 n) by lia. rewrite andb_false_r, orb_false_r.
    rewrite Z.shiftr_spec by lia. replace (n - 8 + 8) with n by lia.
    destruct (Z.lt_ge_cases n 16) as [Hlt|Hge'].
    + rewrite (Z.ones_spec_low 8 (n - 8)) by lia. apply andb_true_r.
    + rewrite (Z.ones_spec_high 8 (n - 8)) by lia. rewrite andb_false_r.
      symmetry. destruct (Z.eq_dec v 0) as [->|Hnz].
      * apply Z.bits_0.
      * apply Z.bits_above_log2; [lia|].
        assert (Z.log2 v < 16); [|lia].
        apply Z.log2_lt_pow2; lia.
Qed.

(** Packing and unpacking an unsigned 16-bit field gives the number back. *)
Lemma pack_H_unpack_H (v : Z) :
  0 <= v <= 65535 -> pack_H v ≫= unpack_H = Some v.
Proof.
  intros Hv. unfold pack_H.
  replace ((0 <=? v) && (v <=? 65535)) with true
    by (symmetry; apply andb_true_iff; split; apply Z.leb_le; lia).
  simpl. rewrite !byte_of_Z_of_byte. f_equal. by apply two_bytes_of.
Qed.

(** The record is eight bytes for every pair of dimensions that fits, and
    carries them back. *)
Lemma header_roundtrip (magic : bytes) (w h : Z) :
  length magic = 4%nat -> 0 <= w <= 65535 -> 0 <= h <= 65535 ->
  ∃ hdr, JSMPEG_HEADER_pack magic w h = Some hdr
         ∧ length hdr = 8%nat
         ∧ JSMPEG_HEADER_unpack hdr = Some (magic, w, h).
Proof.
  intros Hm Hw Hh.
  pose proof (pack_H_unpack_H w Hw) as Pw.
  pose proof (pack_H_unpack_H h Hh) as Ph.
  unfold JSMPEG_HEADER_pack.
  destruct (pack_H w) as [bw|] eqn:Ew; [|by simpl in Pw].
  destruct (pack_H h) as [bh|] eqn:Eh; [|by simpl in Ph].
  simpl in *.
  assert (Lw : length bw = 2%nat).
  { unfold pack_H in Ew. case_match; by simplify_eq. }
  assert (Lh : length bh = 2%nat).
  { unfold pack_H in Eh. case_match; by simplify_eq. }
  assert (P4 : pack_4s magic = magic).
  { unfold pack_4s. rewrite take_app_length'; done. }
  rewrite P4. eexists. split; [done|].
  split; [by rewrite !length_app, Hm, Lw, Lh|].
  unfold JSMPEG_HEADER_unpack.
  rewrite decide_True by (by rewrite !length_app, Hm, Lw, Lh).
  replace 6%nat with (4 + 2)%nat by done. rewrite <- drop_drop.
  rewrite (drop_app_length' magic _ 4) by done.
  rewrite (take_app_length' bw _ 2) by done.
  rewrite (drop_app_length' bw _ 2) by done.
  rewrite Pw. simpl. rewrite Ph. simpl.
  by rewrite (take_app_length' magic).
Qed.

End Handshake.

(** ** The relay loop *)

Section RelayLoop.

Import Relay.

Context {M other : Type}.
Variable broadcast : bytes -> bool -> M -> option M.
Variable act : other -> M -> M.

Local Abbreviation run := (Relay.run broadcast act).

Lemma read1_sized (n : nat) (avail buf rest : bytes) :
  read1 n avail = (buf, rest) ->
  (length buf ≤ n)%nat ∧ buf ++ rest = avail.
Proof.
  unfold read1. intros [= <- <-]. split.
  - rewrite length_take. lia.
  - apply take_drop.
Qed.


(** The loop only adds to the record of chunks, and what it adds is sized. *)
Lemma run_chunks (schedule : list (event other)) (s : state M) :
  ∃ new, chunks (final (run schedule s)) = chunks s ++ new
         ∧ Forall chunk_sized new.
Proof.
  revert s. induction schedule as [|[arrived rc|o] schedule IH]; intros s.
  - exists []. by rewrite app_nil_r.
  - cbn [Relay.run].
    destruct (read1 _ _) as [buf rest] eqn:Hr.
    apply read1_sized in Hr as [Hlen _].
    case_bool_decide as Hbuf; cbn [negb].
    + case_bool_decide; [|apply IH].
      exists []. by rewrite app_nil_r.
    + destruct (broadcast buf true (manager s)) as [m|].
      * destruct (IH {| pipe := rest; stdout_closed := stdout_closed s;
                        manager := m; chunks := chunks s ++ [buf] |})
          as (new & -> & Hnew).
        exists (buf :: new). cbn. split; [by rewrite <- app_assoc|].
        constructor; [|done]. split; [|done].
        destruct buf; [done|cbn; lia].
      * exists []. by rewrite app_nil_r.
  - cbn [Relay.run].
    apply (IH {| pipe := pipe s; stdout_closed := stdout_closed s;
                 manager := act o (manager s); chunks := chunks s |}).
Qed.


(** A schedule in two parts: the second part goes on where the first one
    left the loop running. *)
Lemma run_app (pre post : list (event other)) (s : state M) :
  run (pre ++ post) s =
  match run pre s with
  | Running s' => run post s'
  | o => o
  end.
Proof.
  revert s. induction pre as [|[arrived rc|o] pre IH]; intros s.
  - done.
  - cbn [app Relay.run]. destruct (read1 _ _) as [buf rest].
    case_bool_decide; cbn [negb].
    + case_bool_decide; [done|apply IH].
    + destruct (broadcast buf true (manager s)) as [m|]; [apply IH|done].
  - cbn [app Relay.run]. apply IH.
Qed.


(** The loop has no handler of its own: an exception out of [broadcast]
    ends it, through [finally]. *)
Lemma run_propagates (arrived : bytes) (rc : option Z)
    (schedule : list (event other)) (s : state M) :
  take (Z.to_nat 32768) (pipe s ++ arrived) ≠ [] ->
  broadcast (take (Z.to_nat 32768) (pipe s ++ arrived)) true (manager s)
    = None ->
  ∃ s', run (Pass arrived rc :: schedule) s = Raised s'
        ∧ stdout_closed s' = true ∧ chunks s' = chunks s.
Proof.
  intros Hbuf Hb. cbn [Relay.run read1].
  rewrite bool_decide_false by done. cbn [negb]. rewrite Hb.
  by eexists.
Qed.


End RelayLoop.

(** ** The relay against the viewer registry *)

Section Viewers.

Import Ws4py Relay.

Lemma opened_fresh :
  StreamingWebSocket.opened fresh
  = Some {| terminated := false; sock_open := true;
            wire := [Binary handshake] |}.
Proof. reflexivity. Qed.

(** [broadcast] at one file descriptor. *)
Lemma lookup_broadcast (buf : bytes) (m : registry) (fd : nat) :
  broadcast buf true m !! fd
  = (λ ws, if terminated ws then ws else default ws (send buf true ws))
      <$> m !! fd.
Proof. unfold broadcast. apply lookup_fmap. Qed.

Lemma send_connected (buf : bytes) (ws : WebSocket) :
  connected ws ->
  send buf true ws
  = Some {| terminated := false; sock_open := true;
            wire := wire ws ++ [Binary buf] |}.
Proof. intros [Ht Ho]. unfold send. by rewrite Ht, Ho. Qed.

Lemma send_closed (buf : bytes) (ws : WebSocket) :
  sock_open ws = false -> send buf true ws = None.
Proof. intros Ho. unfold send. rewrite Ho. by rewrite orb_true_r. Qed.

Lemma registry_step_quiet (o : registry_event) (m : registry) (fd : nat) :
  touches fd o = false ->
  registry_step StreamingWebSocket.opened o m !! fd = m !! fd.
Proof.
  destruct o as [fd'|fd'|fd']; unfold touches, registry_step;
    intros Hq%bool_decide_eq_false.
  - unfold add. rewrite opened_fresh. by apply lookup_insert_ne.
  - by apply lookup_alter_ne.
  - by apply lookup_delete_ne.
Qed.

(** The manager swallows what a write raises: the loop never sees it. *)
Lemma serve_never_raised (schedule : list (event registry_event))
    (s s' : state registry) :
  serve schedule s ≠ Raised s'.
Proof.
  unfold serve. revert s.
  induction schedule as [|[arrived rc|o] schedule IH]; intros s.
  - done.
  - cbn [run]. destruct (read1 _ _) as [buf rest].
    case_bool_decide; cbn [negb]; [case_bool_decide; [done|]|]; apply IH.
  - cbn [run]. apply IH.
Qed.

(** The relay's progress does not depend on who is registered. *)
Lemma serve_progress (schedule : list (event registry_event))
    (s1 s2 : state registry) :
  progress_of_state s1 = progress_of_state s2 ->
  progress (serve schedule s1) = progress (serve schedule s2).
Proof.
  unfold serve. revert s1 s2.
  induction schedule as [|[arrived rc|o] schedule IH]; intros s1 s2 Hs.
  - cbn. by rewrite Hs.
  - injection Hs as Hp Hc Hch. cbn [run]. rewrite Hp.
    destruct (read1 _ _) as [buf rest].
    case_bool_decide; cbn [negb].
    + case_bool_decide; [|apply IH].
      * cbn. unfold progress_of_state. cbn. by rewrite Hp, Hch.
      * unfold progress_of_state. by rewrite Hp, Hc, Hch.
    + apply IH. unfold progress_of_state. cbn. by rewrite Hc, Hch.
  - injection Hs as Hp Hc Hch. cbn [run]. apply IH.
    unfold progress_of_state. cbn. by rewrite Hp, Hc, Hch.
Qed.

(** A viewer left alone by the other threads, and connected, is sent every
    chunk, in order, and nothing else. *)
Lemma serve_delivers (schedule : list (event registry_event))
    (s : state registry) (fd : nat) (ws : WebSocket) :
  manager s !! fd = Some ws -> connected ws -> Forall (quiet fd) schedule ->
  ∃ ws' new,
    manager (final (serve schedule s)) !! fd = Some ws'
    ∧ connected ws'
    ∧ chunks (final (serve schedule s)) = chunks s ++ new
    ∧ wire ws' = wire ws ++ (Binary <$> new).
Proof.
  unfold serve. revert s ws.
  induction schedule as [|[arrived rc|o] schedule IH];
    intros s ws Hfd Hc Hq.
  - exists ws, []. cbn. by rewrite !app_nil_r.
  - apply Forall_cons in Hq as [_ Hq]. cbn [run].
    destruct (read1 _ _) as [buf rest].
    case_bool_decide; cbn [negb].
    + case_bool_decide; [|by apply IH].
      exists ws, []. cbn. by rewrite !app_nil_r.
    + edestruct (IH {| pipe := rest; stdout_closed := stdout_closed s;
                       manager := broadcast buf true (manager s);
                       chunks := chunks s ++ [buf] |})
        as (ws' & new & Hl & Hc' & Hch & Hw); [| |done|].
      * cbn. rewrite lookup_broadcast, Hfd. cbn.
        rewrite (send_connected _ _ Hc). destruct Hc as [-> _]. done.
      * done.
      * exists ws', (buf :: new). cbn in *.
        rewrite Hl, Hch, Hw, <- !app_assoc. done.
  - apply Forall_cons in Hq as [Ho Hq]. cbn [run].
    apply (IH {| pipe := pipe s; stdout_closed := stdout_closed s;
                 manager := registry_step StreamingWebSocket.opened o
                              (manager s);
                 chunks := chunks s |} ws); [|done|done].
    cbn. by rewrite registry_step_quiet.
Qed.

(** A viewer whose socket is closed, left alone by the other threads, stays
    registered and is written nothing. *)
Lemma serve_skips_closed (schedule : list (event registry_event))
    (s : state registry) (fd : nat) (ws : WebSocket) :
  manager s !! fd = Some ws -> sock_open ws = false ->
  Forall (quiet fd) schedule ->
  manager (final (serve schedule s)) !! fd = Some ws.
Proof.
  unfold serve. revert s.
  induction schedule as [|[arrived rc|o] schedule IH]; intros s Hfd Ho Hq.
  - done.
  - apply Forall_cons in Hq as [_ Hq]. cbn [run].
    destruct (read1 _ _) as [buf rest].
    case_bool_decide; cbn [negb].
    + case_bool_decide; [done|by apply IH].
    + apply IH; [|done|done]. cbn. rewrite lookup_broadcast, Hfd. cbn.
      rewrite send_closed by done. by destruct (terminated ws).
  - apply Forall_cons in Hq as [Hq' Hq]. cbn [run].
    apply IH; [|done|done]. cbn. by rewrite registry_step_quiet.
Qed.

Lemma serve_greeted (schedule : list (event registry_event))
    (s : state registry) :
  greeted s -> greeted (final (serve schedule s)).
Proof.
  unfold serve. revert s.
  induction schedule as [|[arrived rc|o] schedule IH]; intros s Hs.
  - done.
  - cbn [run]. destruct (read1 _ _) as [buf rest].
    case_bool_decide; cbn [negb].
    + case_bool_decide; [done|by apply IH].
    + apply IH. intros fd ws. cbn. rewrite lookup_broadcast.
      destruct (manager s !! fd) as [ws0|] eqn:Hfd; [|done].
      destruct (Hs fd ws0 Hfd) as (cs & Hw & Hsub). cbn.
      unfold send.
      destruct (terminated ws0); cbn.
      { intros [= <-]. exists cs. split; [done|].
        by apply sublist_inserts_r. }
      destruct (sock_open ws0); cbn; intros [= <-].
      * exists (cs ++ [buf]). cbn. rewrite Hw, fmap_app. split; [done|].
        by apply sublist_app.
      * exists cs. split; [done|]. by apply sublist_inserts_r.
  - cbn [run]. apply IH. intros fd ws. cbn.
    destruct o as [fd'|fd'|fd']; cbn [manager registry_step].
    + unfold add. rewrite opened_fresh.
      destruct (decide (fd' = fd)) as [->|Hne].
      * rewrite lookup_insert_eq. intros [= <-]. exists []. split; [done|].
        apply sublist_nil_l.
      * rewrite lookup_insert_ne by done. apply Hs.
    + destruct (decide (fd' = fd)) as [->|Hne].
      * rewrite lookup_alter_eq.
        destruct (manager s !! fd) as [ws0|] eqn:Hfd; [|done].
        cbn. intros [= <-]. by apply (Hs fd ws0).
      * rewrite lookup_alter_ne by done. apply Hs.
    + destruct (decide (fd' = fd)) as [->|Hne].
      * by rewrite lookup_delete_eq.
      * rewrite lookup_delete_ne by done. apply Hs.
Qed.

(** Equal progress is equal chunks. *)
Lemma progress_chunks {M} (o1 : outcome M) {N} (o2 : outcome N) :
  progress o1 = progress o2 -> chunks (final o1) = chunks (final o2).
Proof. destruct o1, o2; cbn; by intros [= _ _ ->]. Qed.

(** A step of another thread is no step of the relay. *)
Lemma serve_progress_other (pre post : list (event registry_event))
    (o : registry_event) (s1 s2 : state registry) :
  progress_of_state s1 = progress_of_state s2 ->
  progress (serve (pre ++ Other o :: post) s1)
  = progress (serve (pre ++ post) s2).
Proof.
  intros Hs. unfold serve. rewrite !run_app.
  pose proof (serve_progress pre s1 s2 Hs) as Hp. unfold serve in Hp.
  destruct (run _ _ pre s1) as [t1|t1|t1], (run _ _ pre s2) as [t2|t2|t2];
    cbn [progress] in Hp; try done.
  cbn [run]. apply serve_progress.
  unfold progress_of_state in *. cbn. by injection Hp as -> -> ->.
Qed.

End Viewers.

Section RelayClaims.

Import Ws4py Relay.



(** C2.  A viewer is accepted by sending it one binary message of eight
    bytes, [jsmp] followed by the configured width and height as
    big-endian 16-bit numbers; whatever the relay and the other viewers do,
    what a registered viewer has been written starts with that record and
    goes on with chunks only. *)
Theorem handshake_precedes_chunks
    (schedule : list (event registry_event)) (fd : nat) (ws : WebSocket) :
  manager (final (serve schedule (start ∅))) !! fd = Some ws ->
  Struct.JSMPEG_HEADER_pack Config.JSMPEG_MAGIC Config.WIDTH Config.HEIGHT
    = Some handshake
  ∧ length handshake = 8%nat
  ∧ Struct.JSMPEG_HEADER_unpack handshake
    = Some (encode_utf8 "jsmp", Config.WIDTH, Config.HEIGHT)
  ∧ (wire <$> StreamingWebSocket.opened fresh) = Some [Binary handshake]
  ∧ ∃ cs, wire ws = Binary handshake :: (Binary <$> cs)
          ∧ cs `sublist_of` chunks (final (serve schedule (start ∅))).
Proof.
  intros Hfd. repeat split; try reflexivity.
  assert (Hg : greeted (start ∅)).
  { intros fd' ws'. cbn. by rewrite lookup_empty. }
  exact (serve_greeted schedule (start ∅) Hg fd ws Hfd).
Qed.

Lemma handshake_precedes_chunks_witness :
  ∃ cs, wire {| terminated := false; sock_open := true;
                wire := [Binary handshake; Binary [x03];
                         Binary [x04; x05; x06]] |}
        = Binary handshake :: (Binary <$> cs)
        ∧ cs `sublist_of` chunks (final (serve sample_schedule (start ∅))).
Proof.
  apply (handshake_precedes_chunks sample_schedule 5
           {| terminated := false; sock_open := true;
              wire := [Binary handshake; Binary [x03];
                       Binary [x04; x05; x06]] |}).
  reflexivity.
Defined.

(** C6, as the code has it.  The relay has no handler of its own: an
    exception out of [broadcast] would end its loop through [finally].  A
    write that fails on a viewer whose socket has closed never gets that
    far: it is swallowed inside the manager's broadcast, which removes
    nobody.  From the moment the socket of [bad] closes in the middle of a
    run, every write to it fails, the viewer stays registered, written the
    chunks up to the closing and nothing after, the loop never ends by an
    exception and reads on, and every viewer that stays connected is
    written every chunk of the run, in order: what it is written, and what
    the relay reads and how it leaves the loop, are what they are in the
    run without [bad]. *)
Theorem closed_viewer_is_skipped_not_removed
    (pre post : list (event registry_event)) (websockets : registry)
    (bad fd : nat) (wb ws : WebSocket) (s1 : state registry) :
  websockets !! bad = Some wb -> connected wb ->
  Forall (quiet bad) pre -> Forall (quiet bad) post ->
  websockets !! fd = Some ws -> connected ws ->
  Forall (quiet fd) (pre ++ Other (PeerClosed bad) :: post) ->
  serve pre (start websockets) = Running s1 ->
  let out := serve (pre ++ Other (PeerClosed bad) :: post) (start websockets) in
  let alone := serve (pre ++ post) (start (delete bad websockets)) in
  let wb' := {| terminated := false; sock_open := false;
                wire := wire wb ++ (Binary <$> chunks s1) |} in
  (∀ buf, send buf true wb' = None)
  ∧ (∀ buf m, is_Some (broadcast buf true m !! bad) ↔ is_Some (m !! bad))
  ∧ (∀ buf m, m !! bad = Some wb' -> broadcast buf true m !! bad = Some wb')
  ∧ manager (final out) !! bad = Some wb'
  ∧ (∃ later, chunks (final out) = chunks s1 ++ later)
  ∧ (∀ s', out ≠ Raised s')
  ∧ (∃ ws', manager (final out) !! fd = Some ws'
            ∧ wire ws' = wire ws ++ (Binary <$> chunks (final out)))
  ∧ progress out = progress alone
  ∧ manager (final out) !! fd = manager (final alone) !! fd
  ∧ (∀ buf rc rest, buf ≠ [] ->
       ∃ s', run (λ _ _ _, None) (registry_step StreamingWebSocket.opened)
                 (Pass buf rc :: rest) s1
             = Raised s'
             ∧ stdout_closed s' = true ∧ chunks s' = chunks s1).
Proof.
  intros Hbad Hcb Hqb1 Hqb2 Hfd Hc Hq Hpre out alone wb'.
  assert (Hne : bad ≠ fd).
  { apply Forall_app in Hq as [_ Hq]. apply Forall_cons in Hq as [Hq _].
    by apply bool_decide_eq_false in Hq. }
  assert (Hq' : Forall (quiet fd) (pre ++ post)).
  { apply Forall_app in Hq as [Hq1 Hq2]. apply Forall_cons in Hq2 as [_ Hq2].
    by apply Forall_app. }
  assert (Hprog : progress out = progress alone).
  { by apply serve_progress_other. }
  assert (Hout : out = serve post
                   {| pipe := pipe s1; stdout_closed := stdout_closed s1;
                      manager := alter close_sock bad (manager s1);
                      chunks := chunks s1 |}).
  { subst out. unfold serve in *. by rewrite run_app, Hpre. }
  split; [intros buf; by apply send_closed|]. split.
  { intros buf m. rewrite lookup_broadcast. apply fmap_is_Some. }
  split.
  { intros buf m Hm. by rewrite lookup_broadcast, Hm. }
  split.
  { destruct (serve_delivers pre (start websockets) bad wb)
      as (wb1 & new & Hl & [Ht Ho] & Hch & Hw); [done..|].
    rewrite Hpre in Hl, Hch. cbn in Hl, Hch. rewrite Hout.
    apply serve_skips_closed; [|done..]. cbn [manager].
    rewrite lookup_alter_eq, Hl. cbn. unfold close_sock, wb'.
    by rewrite Ht, Hw, Hch. }
  split.
  { rewrite Hout. unfold serve.
    destruct (run_chunks (λ buf binary m, Some (broadcast buf binary m))
                (registry_step StreamingWebSocket.opened) post
                {| pipe := pipe s1; stdout_closed := stdout_closed s1;
                   manager := alter close_sock bad (manager s1);
                   chunks := chunks s1 |}) as (later & Hl & _).
    by exists later. }
  split; [apply serve_never_raised|].
  destruct (serve_delivers (pre ++ Other (PeerClosed bad) :: post)
              (start websockets) fd ws)
    as (ws' & new & Hl & [Ht Ho] & Hch & Hw); [done..|].
  cbn in Hch. fold out in Hl, Hch. split.
  { exists ws'. by rewrite Hch. }
  split; [done|]. split.
  { destruct (serve_delivers (pre ++ post) (start (delete bad websockets))
                fd ws)
      as (ws2 & new2 & Hl2 & [Ht2 Ho2] & Hch2 & Hw2); [|done..|].
    { cbn. by rewrite lookup_delete_ne. }
    cbn in Hch2. fold alone in Hl2, Hch2. rewrite Hl, Hl2. f_equal.
    apply progress_chunks in Hprog. rewrite Hch, Hch2 in Hprog.
    destruct ws', ws2. cbn in *. by subst. }
  intros buf rc rest Hbuf.
  apply run_propagates; [|done].
  destruct (pipe s1 ++ buf) as [|x l] eqn:Hl'.
  { by apply app_eq_nil in Hl' as [_ ->]. }
  by destruct (Z.to_nat 32768) eqn:Hn; [lia|].
Qed.

Lemma closed_viewer_is_skipped_not_removed_witness :
  let out := serve sample_schedule (start sample_registry) in
  let alone := serve (take 3 sample_schedule ++ drop 4 sample_schedule)
                 (start (delete 6%nat sample_registry)) in
  let wb' := {| terminated := false; sock_open := false;
                wire := [Binary [x01; x02]; Binary [x03]] |} in
  (∀ buf, send buf true wb' = None)
  ∧ (∀ buf m, is_Some (broadcast buf true m !! 6%nat) ↔ is_Some (m !! 6%nat))
  ∧ (∀ buf m, m !! 6%nat = Some wb' -> broadcast buf true m !! 6%nat = Some wb')
  ∧ manager (final out) !! 6%nat = Some wb'
  ∧ (∃ later, chunks (final out) = [[x01; x02]; [x03]] ++ later)
  ∧ (∀ s', out ≠ Raised s')
  ∧ (∃ ws', manager (final out) !! 3%nat = Some ws'
            ∧ wire ws' = wire fresh ++ (Binary <$> chunks (final out)))
  ∧ progress out = progress alone
  ∧ manager (final out) !! 3%nat = manager (final alone) !! 3%nat
  ∧ (∀ buf rc rest, buf ≠ [] ->
       ∃ s', run (λ _ _ _, None) (registry_step StreamingWebSocket.opened)
                 (Pass buf rc :: rest)
                 (final (serve (take 3 sample_schedule)
                           (start sample_registry)))
             = Raised s'
             ∧ stdout_closed s' = true
             ∧ chunks s' = [[x01; x02]; [x03]]).
Proof.
  apply (closed_viewer_is_skipped_not_removed
           (take 3 sample_schedule) (drop 4 sample_schedule)
           sample_registry 6 3 fresh fresh
           (final (serve (take 3 sample_schedule) (start sample_registry)))).
  - reflexivity.
  - split; reflexivity.
  - repeat constructor.
  - repeat constructor.
  - reflexivity.
  - split; reflexivity.
  - repeat constructor.
  - reflexivity.
Defined.


(** C6, against the claim: nothing removes the viewer whose write failed,
    and nothing in the relay catches.  In the sample run the third chunk
    is broadcast after the socket of viewer 6 has closed and every chunk
    after the socket of viewer 4 has: the writes to them fail, and both
    are still registered when the loop is over.  With a broadcast that
    lets the failure of a write out, the same run ends by the exception
    at its first chunk. *)
Lemma failing_write_removes_nobody :
  let closed6 := {| terminated := false; sock_open := false;
                    wire := [Binary [x01; x02]; Binary [x03]] |} in
  let out := serve sample_schedule (start sample_registry) in
  let unguarded := λ buf binary (m : registry),
        if bool_decide (map_Forall (λ _ ws, is_Some (send buf binary ws)) m)
        then Some (broadcast buf binary m)
        else None in
  chunks (final out) = [[x01; x02]; [x03]; [x04; x05; x06]]
  ∧ send [x04; x05; x06] true closed6 = None
  ∧ manager (final out) !! 6%nat = Some closed6
  ∧ send [x01; x02] true (close_sock fresh) = None
  ∧ manager (final out) !! 4%nat = Some (close_sock fresh)
  ∧ run unguarded (registry_step StreamingWebSocket.opened)
        sample_schedule (start sample_registry)
    = Raised {| pipe := []; stdout_closed := true;
                manager := sample_registry; chunks := [] |}.
Proof. cbv zeta. repeat split; vm_compute; reflexivity. Qed.

End RelayClaims.

(** ** The frame sink *)

Section FrameSink.

Import Sink.

Lemma wait_forever (p : Popen) (t : nat) :
  wait None p t ≠ TimeoutExpired.
Proof. unfold wait. destruct (exit_time p); [by case_match|done]. Qed.

(** The order matters: a wait on a converter whose input is still open
    does not return. *)
Lemma wait_before_close (p : Popen) (t : nat) :
  stdin_closed p = false -> wait None p t = Blocked.
Proof. intros Hc. unfold wait, exit_time. by rewrite Hc. Qed.

(** C3, as the code has it.  [flush] closes the converter's input and then
    waits for the converter with no timeout: it returns once the converter
    has exited, never raises [TimeoutExpired], and is still blocked at any
    time before the exit -- for ever when the converter does not exit. *)
Theorem flush_closes_then_waits_unbounded (p : Popen) (t : nat) :
  let '(calls, p', r) := flush p t in
  calls = [print "Waiting for background conversion process to exit";
           stdin_close; converter_wait None]
  ∧ stdin_closed p' = true
  ∧ stdin p' = stdin p
  ∧ r ≠ TimeoutExpired
  ∧ (r = Returned ↔ ∃ e, exits_after p = Some e ∧ (e ≤ t)%nat)
  ∧ (r = Blocked ↔ ∀ e, exits_after p = Some e -> (t < e)%nat).
Proof.
  unfold flush, wait, exit_time. cbn.
  destruct (exits_after p) as [e|].
  - destruct (Nat.leb_spec e t).
    + repeat split; try done.
      * intros _. by exists e.
      * intros H'. specialize (H' e eq_refl). lia.
    + repeat split; try done.
      * intros (e' & [= <-] & ?). lia.
      * by intros _ e' [= <-].
  - repeat split; try done. by intros (e & ? & _).
Qed.

(** C3, against the claim: with a converter that never exits there is no
    grace period after which [flush] is over, by a return or by an error. *)
Lemma flush_has_no_grace_period :
  ¬ ∃ grace : nat, ∀ t : nat, (grace ≤ t)%nat -> (flush hung t).2 ≠ Blocked.
Proof. intros [grace H]. by apply (H grace). Qed.

End FrameSink.

(** ** The capture loops and their cleanup *)

Section Lifecycle.

Import Config Control.

Lemma attempt_all (fails : effect -> bool) (steps : list effect) :
  Forall (λ e, fails e = false) steps -> attempt fails steps = (steps, false).
Proof.
  induction 1 as [|e steps He _ IH]; [done|].
  cbn. by rewrite He, IH.
Qed.

Lemma attempt_first_failure (fails : effect -> bool)
    (pre post : list effect) (e : effect) :
  Forall (λ x, fails x = false) pre -> fails e = true ->
  attempt fails (pre ++ e :: post) = (pre ++ [e], true).
Proof.
  intros Hpre He. induction Hpre as [|x pre Hx _ IH].
  - cbn. by rewrite He.
  - cbn. by rewrite Hx, IH.
Qed.

(** The shape of every end of a run: the flag is set back first, then come
    the cleanup steps that were called. *)
Lemma finish_ended {L} (fails : effect -> bool) (e : loop_end L)
    (s : state) (propagates : bool) :
  finish fails e = Ended s propagates ->
  whileMove s = true
  ∧ ∃ s0 pending,
      trace s = trace s0 ++ whileMove_True :: (attempt fails cleanup).1
      ∧ propagates = (attempt fails cleanup).2 || pending
      ∧ water s = water s0 ∧ look s = look s0
      ∧ match e with
        | Looping _ _ => False
        | Left s1 | Interrupted s1 => s1 = s0 ∧ pending = false
        | Faulted s1 => s1 = s0 ∧ pending = true
        end.
Proof.
  unfold finish, finally.
  destruct e as [l s1|s1|s1|s1]; [done|..];
    destruct (attempt fails cleanup) as [called raised];
    intros [= <- <-]; (split; [done|]);
    [exists s1, false|exists s1, false|exists s1, true]; cbn;
    by rewrite <- app_assoc.
Qed.

Lemma finish_cleanup {L} (fails : effect -> bool) (e : loop_end L)
    (s : state) (propagates : bool) :
  finish fails e = Ended s propagates ->
  ∃ before called,
    trace s = before ++ whileMove_True :: called
    ∧ (Forall (λ e, fails e = false) cleanup -> called = cleanup)
    ∧ (∀ pre e post, cleanup = pre ++ e :: post ->
         Forall (λ x, fails x = false) pre -> fails e = true ->
         called = pre ++ [e] ∧ propagates = true)
    ∧ joined cleanup = reverse (started startup).
Proof.
  intros (_ & s1 & pending & Ht & Hp & _)%finish_ended.
  exists (trace s1), (attempt fails cleanup).1. split; [done|].
  split; [|split; [|done]].
  - intros Hok. by rewrite attempt_all.
  - intros pre e' post Hc Hpre He. rewrite Hp.
    rewrite Hc, attempt_first_failure by done. done.
Qed.

(** [autoLook] cleans up as [main] does. *)
Lemma autoLook_cleanup (fails : effect -> bool) (schedule : list tick)
    (s0 s : state) (propagates : bool) :
  autoLook fails schedule s0 = Ended s propagates ->
  ∃ before called,
    trace s = before ++ whileMove_True :: called
    ∧ (Forall (λ e, fails e = false) cleanup -> called = cleanup)
    ∧ (∀ pre e post, cleanup = pre ++ e :: post ->
         Forall (λ x, fails x = false) pre -> fails e = true ->
         called = pre ++ [e] ∧ propagates = true)
    ∧ joined cleanup = reverse (started startup).
Proof. unfold autoLook. apply finish_cleanup. Qed.

(** C4, as the code has it.  When a run of [main] ends, the cleanup steps
    are called one after the other: stop the recording, join the broadcast
    thread, shut down the HTTP and then the websocket server, join the HTTP
    and then the websocket thread -- the joins reverse the order of the
    starts.  If none raises, all six are called.  A step that raises is the
    last one called, and the exception leaves [main]. *)
Theorem cleanup_runs_until_first_failure
    (fails : effect -> bool) (schedule : list tick) (s0 s : state)
    (propagates : bool) :
  main fails schedule s0 = Ended s propagates ->
  ∃ before called,
    trace s = before ++ whileMove_True :: called
    ∧ (Forall (λ e, fails e = false) cleanup -> called = cleanup)
    ∧ (∀ pre e post, cleanup = pre ++ e :: post ->
         Forall (λ x, fails x = false) pre -> fails e = true ->
         called = pre ++ [e] ∧ propagates = true)
    ∧ joined cleanup = reverse (started startup).
Proof. unfold main. apply finish_cleanup. Qed.

Lemma cleanup_runs_until_first_failure_witness :
  ∃ before called,
    trace {| whileMove := true; water := false; look := false;
             trace := startup ++ [whileMove_True; stop_recording;
                                  thread_join broadcast_thread] |}
      = before ++ whileMove_True :: called
    ∧ (Forall (λ e, bool_decide (e = thread_join broadcast_thread) = false)
         cleanup -> called = cleanup)
    ∧ (∀ pre e post, cleanup = pre ++ e :: post ->
         Forall (λ x, bool_decide (x = thread_join broadcast_thread) = false)
           pre ->
         bool_decide (e = thread_join broadcast_thread) = true ->
         called = pre ++ [e] ∧ true = true)
    ∧ joined cleanup = reverse (started startup).
Proof.
  apply (cleanup_runs_until_first_failure
           (λ e, bool_decide (e = thread_join broadcast_thread))
           [Capture 7; External (call_setWhileMove false)] initial).
  reflexivity.
Defined.

(** C4, against the claim: when stopping the recording raises, no thread
    is joined and no server is shut down, and the exception leaves
    [main]. *)
Lemma cleanup_is_not_best_effort :
  main (λ e, bool_decide (e = stop_recording))
       [Capture 7; External (call_setWhileMove false)] initial
  = Ended {| whileMove := true; water := false; look := false;
             trace := startup ++ [whileMove_True; stop_recording] |}
          true.
Proof. reflexivity. Qed.

(** A stop request or an interrupt at the end of a schedule takes the run
    out of its loop. *)
Lemma loop_leaves {L} (body : Q -> L -> state -> L * state)
    (schedule : list tick) (last : tick) (l l' : L) (s s' : state) :
  last = External (call_setWhileMove false) ∨ last = Interrupt ->
  loop body (schedule ++ [last]) l s ≠ Looping l' s'.
Proof.
  intros Hlast. revert l s.
  induction schedule as [|[c|score| |] schedule IH]; intros l s; cbn.
  - by destruct Hlast as [-> | ->].
  - apply IH.
  - destruct (whileMove s); [|done].
    destruct (body score l s) as [l1 s1]. apply IH.
  - done.
  - done.
Qed.

Lemma finish_resets {L} (fails : effect -> bool) (e : loop_end L) :
  match finish fails e with
  | Ended s _ => getWhileMove s = true
  | StillRunning _ => ∃ l s, e = Looping l s
  end.
Proof.
  destruct (finish fails e) as [s|s p] eqn:He.
  - destruct e as [l s1|s1|s1|s1]; [by eexists _, _|..];
      cbn in He; unfold finally in He;
      by destruct (attempt fails cleanup).
  - by apply finish_ended in He as [? _].
Qed.

Lemma run_leaves {L} (fails : effect -> bool)
    (body : Q -> L -> state -> L * state)
    (schedule : list tick) (last : tick) (l : L) (s0 : state) :
  last = External (call_setWhileMove false) ∨ last = Interrupt ->
  ∃ s p, finish fails (loop body (schedule ++ [last]) l s0) = Ended s p
         ∧ getWhileMove s = true.
Proof.
  intros Hlast.
  pose proof (finish_resets fails (loop body (schedule ++ [last]) l s0)) as H.
  destruct (finish fails _) as [s|s p].
  - destruct H as (l' & s' & H). by apply loop_leaves in H.
  - by exists s, p.
Qed.

(** C10.  However a run of [main] or [autoLook] ends, the flag reads true
    afterwards; and a run does end when [setWhileMove(False)] is called or
    a keyboard interrupt arrives, so the request that stopped the run is
    gone once the run is over. *)
Theorem run_end_sets_whileMove_back
    (fails : effect -> bool) (schedule : list tick) (s0 : state) :
  match main fails schedule s0 with
  | Ended s _ => getWhileMove s = true
  | StillRunning _ => True
  end
  ∧ match autoLook fails schedule s0 with
    | Ended s _ => getWhileMove s = true
    | StillRunning _ => True
    end
  ∧ (∃ s p, main fails (schedule ++ [External (call_setWhileMove false)]) s0
            = Ended s p ∧ getWhileMove s = true)
  ∧ (∃ s p, main fails (schedule ++ [Interrupt]) s0 = Ended s p
            ∧ getWhileMove s = true)
  ∧ (∃ s p, autoLook fails (schedule ++ [External (call_setWhileMove false)]) s0
            = Ended s p ∧ getWhileMove s = true)
  ∧ (∃ s p, autoLook fails (schedule ++ [Interrupt]) s0 = Ended s p
            ∧ getWhileMove s = true).
Proof.
  unfold main, autoLook. repeat split.
  - pose proof (finish_resets fails
      (loop main_body schedule locals0 (emit startup s0))) as H.
    by destruct (finish fails _).
  - pose proof (finish_resets fails
      (loop autoLook_body schedule zeros (emit startup s0))) as H.
    by destruct (finish fails _).
  - apply run_leaves. by left.
  - apply run_leaves. by right.
  - apply run_leaves. by left.
  - apply run_leaves. by right.
Qed.

(** ** The intent flags *)

Lemma single_answers_one_intent (score : Q) (s : state) :
  answers_one_intent s (single score s).
Proof.
  unfold answers_one_intent, single.
  destruct s as [wm w l tr]; cbn.
  split; [by destruct l, w; try destruct (dry _)|].
  split; [by intros ->|].
  split; [|by intros -> ->].
  intros -> ->. repeat split; destruct (dry _); cbn;
    rewrite <- ?app_assoc; eauto.
Qed.

Lemma autoLook_body_answers_one_intent (score : Q) (w : window) (s : state) :
  answers_one_intent s (autoLook_body score w s).2.
Proof.
  unfold answers_one_intent, autoLook_body.
  destruct s as [wm wa l tr]; cbn.
  split; [by destruct l, wa; try destruct (dry _)|].
  split; [by intros ->|].
  split; [|by intros -> ->].
  intros -> ->. repeat split; destruct (dry _); cbn;
    rewrite <- ?app_assoc; eauto.
Qed.

(** The loop of [main] never assigns [water]. *)
Lemma main_body_keeps_water (score : Q) (l : locals) (s : state) :
  water (main_body score l s).2 = water s.
Proof.
  unfold main_body. cbn.
  destruct (if forallb _ _ then _ else _); [|done].
  destruct (look s); cbn; by destruct (_ && _).
Qed.

(** C5, as the code has it.  One pass of [single], and of the loop of
    [autoLook], answers at most one intent, [look] before [water]: a set
    [look] is cleared once, after its notification, and [water] is left as
    it was; with [look] unset a set [water] is cleared once, after the one
    notification of the branch taken.  So with [look] unset,
    [setWater(True)] followed by one [single] leaves [water] false,
    assigned once, whichever comment was sent.  The loop of [main] does not
    assign [water] at all. *)
Theorem intent_is_answered_look_first (score : Q) (s : state) :
  answers_one_intent s (single score s)
  ∧ (∀ w, answers_one_intent s (autoLook_body score w s).2)
  ∧ (∀ l, water (main_body score l s).2 = water s)
  ∧ (look s = false ->
       let s' := single score (setWater true s) in
       getWater s' = false
       ∧ ∃ c, (c = WATER_COMMENT ∨ c = NOT_WATER_COMMENT)
              ∧ trace s' = trace s ++ [sendSlack c; water_False]).
Proof.
  split; [apply single_answers_one_intent|].
  split; [intros w; apply autoLook_body_answers_one_intent|].
  split; [intros l; apply main_body_keeps_water|].
  intros Hl s'.
  destruct (single_answers_one_intent score (setWater true s))
    as (_ & _ & H & _).
  destruct (H Hl eq_refl) as (_ & Hw & c & Hc & Ht). eauto.
Qed.

(** C5, against the claim: with both intents set, one [single] answers
    [look] only; [water] is still set and was never assigned.  The state
    is met after a run of [main] stopped with a [look] request pending:
    the next [setWater(True)] and [single] leave [water] set.  And a run
    of [main] entered with [water] set leaves it set. *)
Lemma water_intent_outlives_a_look :
  getWater (single 7 (setLook true (setWater true initial))) = true
  ∧ ¬ (water_False ∈ trace (single 7 (setLook true (setWater true initial))))
  ∧ match main (λ _, false)
            [Capture 7; External (call_setLook true);
             External (call_setWhileMove false)] initial with
    | Ended s _ => getWater (single 7 (setWater true s)) = true
    | StillRunning _ => False
    end
  ∧ main (λ _, false) [Capture 7; Capture 7; External (call_setWhileMove false)]
         (setWater true initial)
    = Ended {| whileMove := true; water := true; look := false;
               trace := startup ++ whileMove_True :: cleanup |} false.
Proof.
  split; [reflexivity|]. split; [|split; reflexivity].
  cbn. rewrite !elem_of_cons, elem_of_nil. by intros [?|[?|?]].
Qed.

End Lifecycle.

(** ** The page template *)

Section PageTemplate.

Import Template.

#[local] Arguments String.append !_ _ / : simpl nomatch.

Lemma span_id_app (s : str) :
  (span_id s).1 +:+ (span_id s).2 = s.
Proof.
  induction s as [|c s IH]; [done|]. cbn.
  destruct (is_id_char c); [|done].
  destruct (span_id s) as [n r]. cbn in *. by rewrite IH.
Qed.

Lemma span_id_length (s : str) :
  (String.length (span_id s).2 ≤ String.length s)%nat.
Proof.
  induction s as [|c s IH]; [done|]. cbn.
  destruct (is_id_char c); [|done].
  destruct (span_id s) as [n r]. cbn in *. lia.
Qed.

Lemma concat_str_cons (s : str) (l : list str) :
  concat_str (s :: l) = s +:+ concat_str l.
Proof. done. Qed.

Lemma append_assoc (a b c : str) : (a +:+ b) +:+ c = a +:+ (b +:+ c).
Proof. induction a as [|x a IH]; [done|]. cbn. by rewrite IH. Qed.

(** The scan loses nothing: the tokens, written back, are the template. *)
Lemma scan_source (fuel : nat) (s : str) :
  (String.length s ≤ fuel)%nat ->
  concat_str (source <$> scan fuel s) = s.
Proof.
  revert s. induction fuel as [|fuel IH]; intros s Hlen.
  { destruct s; [done|cbn in Hlen; lia]. }
  destruct s as [|c rest]; [done|]. cbn in Hlen. cbn [scan].
  destruct (Ascii.eqb_spec c "$") as [->|Hc].
  2: { rewrite fmap_cons, concat_str_cons, IH by lia. done. }
  destruct rest as [|d rest']; [done|]. cbn in Hlen.
  destruct (Ascii.eqb_spec d "$") as [->|Hd].
  { rewrite fmap_cons, concat_str_cons, IH by lia. done. }
  assert (Hinv : concat_str (source <$> TInvalid :: scan fuel (String d rest'))
                 = String "$" (String d rest')).
  { rewrite fmap_cons, concat_str_cons, IH by (cbn; lia). done. }
  destruct (is_id_start d) eqn:Hid.
  { pose proof (span_id_app (String d rest')) as Ha.
    pose proof (span_id_length (String d rest')) as Hl.
    destruct (span_id (String d rest')) as [name after]. cbn in Ha, Hl.
    rewrite fmap_cons, concat_str_cons, IH by lia.
    cbn. by rewrite Ha. }
  destruct (Ascii.eqb_spec d "{") as [->|Hb]; [|done].
  destruct rest' as [|e rest'']; [done|].
  destruct (is_id_start e); [|done].
  pose proof (span_id_app (String e rest'')) as Ha.
  pose proof (span_id_length (String e rest'')) as Hl.
  destruct (span_id (String e rest'')) as [name after]. cbn in Ha, Hl.
  destruct after as [|f after']; [done|].
  destruct (Ascii.eqb_spec f "}") as [->|Hf]; [|done].
  cbn in Hl, Hlen. rewrite fmap_cons, concat_str_cons, IH by lia.
  cbn. rewrite append_assoc. cbn. by rewrite Ha.
Qed.

Lemma tokens_source (template : str) :
  concat_str (source <$> tokens template) = template.
Proof. by apply scan_source. Qed.

Lemma scan_plain (fuel : nat) (s : str) : Forall plain (scan fuel s).
Proof.
  revert s. induction fuel as [|fuel IH]; intros s; [constructor|].
  destruct s as [|c rest]; [constructor|]. cbn [scan].
  destruct (Ascii.eqb_spec c "$") as [->|Hc]; [|by constructor].
  repeat case_match; repeat constructor; try done; apply IH.
Qed.

Lemma has_dollar_app (a b : str) :
  has_dollar (a +:+ b) = has_dollar a || has_dollar b.
Proof.
  induction a as [|c a IH]; [done|]. cbn. by rewrite IH, orb_assoc.
Qed.

(** Without a delimiter there is nothing for the pattern to match. *)
Lemma scan_no_dollar (fuel : nat) (s : str) :
  has_dollar s = false -> existsb is_placeholder (scan fuel s) = false.
Proof.
  revert s. induction fuel as [|fuel IH]; intros s; [done|].
  destruct s as [|c rest]; [done|]. cbn.
  destruct (Ascii.eqb c "$"); [done|]. cbn. apply IH.
Qed.

(** When every placeholder of a template is provided for, and the values
    pasted hold no delimiter, none is left in the result. *)
Lemma substituted_no_dollar (mapping : gmap string pyval) (l : list token) :
  map_Forall (λ _ v, has_dollar (py_str v) = false) mapping ->
  Forall plain l -> Forall (provided mapping) l ->
  has_dollar (concat_str (convert mapping <$> l)) = false.
Proof.
  intros Hm Hplain Hprov.
  induction l as [|t l IH]; [done|].
  apply Forall_cons in Hplain as [Ht Hplain].
  apply Forall_cons in Hprov as [Hp Hprov].
  rewrite fmap_cons, concat_str_cons, has_dollar_app, IH by done.
  rewrite orb_false_r.
  destruct t as [c| |n|n|]; cbn in *; try done.
  - rewrite orb_false_r. by apply Ascii.eqb_neq.
  - destruct Hp as [v Hv]. rewrite Hv. by apply (Hm n v).
  - destruct Hp as [v Hv]. rewrite Hv. by apply (Hm n v).
Qed.

(** The fuel does not matter once it covers the text. *)
Lemma scan_fuel (f1 f2 : nat) (s : str) :
  (String.length s ≤ f1)%nat -> (String.length s ≤ f2)%nat ->
  scan f1 s = scan f2 s.
Proof.
  revert f2 s. induction f1 as [|f1 IH]; intros f2 s H1 H2.
  { destruct s; [by destruct f2|cbn in H1; lia]. }
  destruct f2 as [|f2]; [destruct s; [done|cbn in H2; lia]|].
  destruct s as [|c rest]; [done|]. cbn in H1, H2. cbn [scan].
  destruct (Ascii.eqb c "$"); [|by rewrite (IH f2 rest) by lia].
  destruct rest as [|d rest']; [done|]. cbn in H1, H2.
  destruct (Ascii.eqb d "$"); [by rewrite (IH f2 rest') by lia|].
  assert (Hinv : TInvalid :: scan f1 (String d rest')
                 = TInvalid :: scan f2 (String d rest')).
  { by rewrite (IH f2 (String d rest')) by (cbn; lia). }
  destruct (is_id_start d).
  { pose proof (span_id_length (String d rest')) as Hl.
    destruct (span_id (String d rest')) as [name after]. cbn in Hl.
    by rewrite (IH f2 after) by lia. }
  destruct (Ascii.eqb d "{"); [|done].
  destruct rest' as [|e rest'']; [done|].
  destruct (is_id_start e); [|done].
  pose proof (span_id_length (String e rest'')) as Hl.
  destruct (span_id (String e rest'')) as [name after]. cbn in Hl, H1, H2.
  destruct after as [|f after']; [done|].
  destruct (Ascii.eqb f "}"); [|done].
  cbn in Hl. by rewrite (IH f2 after') by lia.
Qed.

Lemma tokens_scan (fuel : nat) (s : str) :
  (String.length s ≤ fuel)%nat -> scan fuel s = tokens s.
Proof. intros H. by apply scan_fuel. Qed.

Lemma id_start_is_id_char (c : ascii) :
  is_id_start c = true -> is_id_char c = true.
Proof. unfold is_id_char. by intros ->. Qed.

Lemma id_char_not_delimiter (c : ascii) :
  is_id_char c = true ->
  Ascii.eqb c "$" = false ∧ Ascii.eqb c "{" = false ∧ Ascii.eqb c "}" = false.
Proof.
  intros Hc. repeat split; apply Ascii.eqb_neq; intros ->; done.
Qed.

Lemma span_id_identifier (n t : str) :
  all_id_chars n = true -> continues t = false ->
  span_id (n +:+ t) = (n, t).
Proof.
  intros Hn Ht. induction n as [|c n IH].
  - cbn. destruct t as [|d t]; [done|]. cbn in *. by rewrite Ht.
  - cbn in Hn. apply andb_true_iff in Hn as [Hc Hn].
    cbn. by rewrite Hc, IH.
Qed.

Lemma length_append (a b : str) :
  String.length (a +:+ b) = (String.length a + String.length b)%nat.
Proof. induction a as [|c a IH]; [done|]. cbn. by rewrite IH. Qed.

(** How the scan reads what a writer puts down. *)
Lemma tokens_nil : tokens "" = [].
Proof. done. Qed.

Lemma tokens_literal (c : ascii) (t : str) :
  c ≠ "$"%char -> tokens (String c t) = TLit c :: tokens t.
Proof.
  intros Hc%Ascii.eqb_neq.
  rewrite <- (tokens_scan (S (String.length t)) (String c t)) by (cbn; lia).
  remember (String.length t) as k eqn:Hk.
  cbn [scan]. rewrite Hc. f_equal. apply tokens_scan. lia.
Qed.

Lemma tokens_escaped (t : str) :
  tokens ("$$" +:+ t) = TEscaped :: tokens t.
Proof.
  rewrite <- (tokens_scan (S (S (String.length t)))) by (cbn; lia).
  remember (S (String.length t)) as k eqn:Hk.
  cbn [String.append scan].
  change (Ascii.eqb "$" "$") with true. cbn match.
  f_equal. apply tokens_scan. lia.
Qed.

Lemma tokens_named (n t : str) :
  is_identifier n = true -> continues t = false ->
  tokens ("$" +:+ n +:+ t) = TNamed n :: tokens t.
Proof.
  intros Hn Ht. destruct n as [|d n]; [done|].
  cbn in Hn. apply andb_true_iff in Hn as [Hd Hn].
  destruct (id_char_not_delimiter d (id_start_is_id_char d Hd))
    as (Hd1 & _ & _).
  rewrite <- (tokens_scan (S (String.length ("$" +:+ String d n +:+ t))))
    by lia.
  remember (String.length ("$" +:+ String d n +:+ t)) as k eqn:Hk.
  cbn [String.append scan].
  change (Ascii.eqb "$" "$") with true. cbn match. rewrite Hd1, Hd.
  change (String d (n +:+ t)) with (String d n +:+ t).
  rewrite span_id_identifier; [| |done].
  2: { cbn. by rewrite (id_start_is_id_char d Hd), Hn. }
  f_equal. apply tokens_scan. subst k.
  cbn [String.append String.length]. rewrite ?length_append. lia.
Qed.

Lemma tokens_braced (n t : str) :
  is_identifier n = true ->
  tokens ("${" +:+ n +:+ "}" +:+ t) = TBraced n :: tokens t.
Proof.
  intros Hn. destruct n as [|e n]; [done|].
  cbn in Hn. apply andb_true_iff in Hn as [He Hn].
  rewrite <- (tokens_scan
                (S (String.length ("${" +:+ String e n +:+ "}" +:+ t))))
    by lia.
  remember (String.length ("${" +:+ String e n +:+ "}" +:+ t)) as k eqn:Hk.
  cbn [String.append scan].
  change (Ascii.eqb "$" "$") with true.
  change (Ascii.eqb "{" "$") with false.
  change (is_id_start "{") with false.
  change (Ascii.eqb "{" "{") with true. cbn match. rewrite He.
  change (String e (n +:+ String "}" t)) with (String e n +:+ String "}" t).
  rewrite span_id_identifier; [| |done].
  2: { cbn. by rewrite (id_start_is_id_char e He), Hn. }
  change (Ascii.eqb "}" "}") with true. cbn match.
  f_equal. apply tokens_scan. subst k.
  cbn [String.append String.length]. rewrite ?length_append.
  cbn [String.length]. lia.
Qed.


(** Reading back what was written gives the tokens that were written. *)
Lemma tokens_written (l : list token) :
  well_written l = true -> tokens (concat_str (source <$> l)) = l.
Proof.
  induction l as [|t l IH]; [done|]. cbn [well_written].
  intros [Ht Hl]%andb_true_iff. specialize (IH Hl).
  cbn [fmap list_fmap concat_str]. destruct t as [c| |n|n|]; [| | | |done].
  - apply negb_true_iff, Ascii.eqb_neq in Ht.
    cbn [source String.append]. by rewrite tokens_literal, IH.
  - cbn [source]. by rewrite tokens_escaped, IH.
  - apply andb_true_iff in Ht as [Hn Hc%negb_true_iff].
    cbn [source]. rewrite append_assoc. by rewrite tokens_named, IH.
  - cbn [source]. rewrite !append_assoc. by rewrite tokens_braced, IH.
Qed.

(** [safe_substitute] along the template, whatever the mapping. *)
Lemma safe_substitute_nil (m : gmap string pyval) :
  safe_substitute "" m = "".
Proof. done. Qed.

Lemma safe_substitute_literal (m : gmap string pyval) (c : ascii) (t : str) :
  c ≠ "$"%char ->
  safe_substitute (String c t) m = String c (safe_substitute t m).
Proof. intros Hc. unfold safe_substitute. by rewrite tokens_literal. Qed.

Lemma safe_substitute_escaped (m : gmap string pyval) (t : str) :
  safe_substitute ("$$" +:+ t) m = "$" +:+ safe_substitute t m.
Proof. unfold safe_substitute. by rewrite tokens_escaped. Qed.

Lemma safe_substitute_braced (m : gmap string pyval) (n t : str) :
  is_identifier n = true ->
  safe_substitute ("${" +:+ n +:+ "}" +:+ t) m
  = match m !! n with
    | Some v => py_str v
    | None => "${" +:+ n +:+ "}"
    end +:+ safe_substitute t m.
Proof. intros Hn. unfold safe_substitute. by rewrite tokens_braced. Qed.

Lemma safe_substitute_named (m : gmap string pyval) (n t : str) :
  is_identifier n = true -> continues t = false ->
  safe_substitute ("$" +:+ n +:+ t) m
  = match m !! n with
    | Some v => py_str v
    | None => "$" +:+ n
    end +:+ safe_substitute t m.
Proof. intros Hn Ht. unfold safe_substitute. by rewrite tokens_named. Qed.

End PageTemplate.

(** ** The page server *)

Section PageServer.

Import Template Http.

Variables (version_string date_time_string : str).
Variable error_page : Z -> str -> str.

Local Abbreviation handle := (Http.handle version_string date_time_string error_page).

Lemma page_mapping_values :
  map_Forall (λ _ v, has_dollar (py_str v) = false) page_mapping.
Proof.
  unfold page_mapping.
  repeat (apply map_Forall_insert_2; [reflexivity|]).
  apply map_Forall_empty.
Qed.

(** The response to a path the [elif] chain serves. *)
Lemma handle_served (srv : server) (now cmd p content_type content : str) :
  p ≠ "/" -> route srv p = Some (content_type, content) ->
  handle srv now {| command := cmd; path := p |}
  = {| status := 200;
       headers := [("Server", version_string); ("Date", date_time_string);
                   ("Content-Type", content_type);
                   ("Content-Length",
                    decimal (length (encode_utf8 content)));
                   ("Last-Modified", now)];
       body := if String.eqb cmd "GET" then encode_utf8 content else [] |}.
Proof.
  intros Hp%String.eqb_neq Hr. unfold Http.handle, do_GET. cbn [path command].
  rewrite Hp, Hr. by destruct (String.eqb cmd "GET").
Qed.

(** The response to any other path but the root. *)
Lemma handle_not_found (srv : server) (now cmd p : str) :
  p ≠ "/" -> route srv p = None ->
  handle srv now {| command := cmd; path := p |}
  = let page := encode_utf8 (error_page 404 "File not found") in
    {| status := 404;
       headers := [("Server", version_string); ("Date", date_time_string);
                   ("Connection", "close");
                   ("Content-Type", "text/html;charset=utf-8");
                   ("Content-Length", decimal (length page))];
       body := if negb (String.eqb cmd "HEAD") then page else [] |}.
Proof.
  intros Hp%String.eqb_neq Hr. unfold Http.handle, do_GET. cbn [path command].
  rewrite Hp, Hr. cbn.
  destruct (String.eqb cmd "HEAD"); cbn; [done|].
  case_bool_decide as Hb; cbn; [by rewrite Hb|done].
Qed.

Lemma route_other (srv : server) (p : str) :
  p ≠ "/index.html" -> p ≠ "/jsmpg.js" -> route srv p = None.
Proof.
  intros H1%String.eqb_neq H2%String.eqb_neq. unfold route.
  by rewrite H1, H2.
Qed.

(** C8.  [GET /] is answered by a 301 to [/index.html]; [GET /jsmpg.js] by
    the script as read at start-up, as [application/javascript]; a [GET]
    of any path other than these and [/index.html] by a 404 whose
    [Content-Length] is the length of the body written. *)
Theorem page_routing (srv : server) (now p : str) :
  let r := handle srv now {| command := "GET"; path := p |} in
  (p = "/" ->
     status r = 301 ∧ header "Location" r = Some "/index.html" ∧ body r = [])
  ∧ (p = "/jsmpg.js" ->
       status r = 200
       ∧ header "Content-Type" r = Some "application/javascript"
       ∧ body r = encode_utf8 (jsmpg_content srv))
  ∧ (p ≠ "/" -> p ≠ "/index.html" -> p ≠ "/jsmpg.js" ->
       status r = 404
       ∧ header "Content-Length" r = Some (decimal (length (body r)))).
Proof.
  cbv zeta. split; [|split].
  - by intros ->.
  - intros ->. by rewrite (handle_served srv now "GET" "/jsmpg.js"
                             "application/javascript" (jsmpg_content srv)).
  - intros H0 H1 H2.
    by rewrite handle_not_found by (done || by apply route_other).
Qed.

(** C9, as the code has it.  The two pages served with a 200 carry a
    [Content-Length], computed from the encoded content, and a
    [Last-Modified]; the redirect carries neither; the 404 carries the
    length of its error page and no [Last-Modified]. *)
Theorem length_and_date_on_served_pages (srv : server) (now cmd p : str) :
  let r := handle srv now {| command := cmd; path := p |} in
  (p ≠ "/" -> ∀ content_type content,
     route srv p = Some (content_type, content) ->
     status r = 200
     ∧ header "Content-Length" r
       = Some (decimal (length (encode_utf8 content)))
     ∧ header "Last-Modified" r = Some now)
  ∧ (p = "/" ->
       status r = 301
       ∧ headers r = [("Server", version_string); ("Date", date_time_string);
                      ("Location", "/index.html")])
  ∧ (p ≠ "/" -> route srv p = None ->
       status r = 404
       ∧ header "Content-Length" r
         = Some (decimal (length (encode_utf8
                                    (error_page 404 "File not found"))))
       ∧ header "Last-Modified" r = None).
Proof.
  cbv zeta. split; [|split].
  - intros Hp ct content Hr. by rewrite (handle_served _ _ _ _ ct content).
  - by intros ->.
  - intros Hp Hr. by rewrite handle_not_found.
Qed.

(** C7, as the code has it.  The body of [GET /index.html] is the
    template with every [$name] and [${name}] whose name is one of
    [WS_PORT], [WIDTH], [HEIGHT], [COLOR], [BGCOLOR] replaced by the
    configured value, served as [text/html; charset=utf-8]; a placeholder
    of another name is left as written and [$$] becomes [$].  When the
    template has no other use of [$] than placeholders of the five names,
    the page holds no [$] and so no placeholder.

    The substitution is stated on the text itself as well, from the left:
    a character other than [$] is copied, [$$] gives [$], [${name}] and
    [$name] (the name an identifier, the latter not running into the text
    behind it) give the configured value of one of the five names and stay
    as written for any other name, and the rest of the template is
    rendered the same way.  The five names are the only keys.  A template
    written as a sequence of such pieces is read back as that sequence,
    and the page is the sequence of their renderings. *)
Theorem index_page_substitution (srv : server) (now : str) :
  let r := handle srv now {| command := "GET"; path := "/index.html" |} in
  let page := safe_substitute (index_template srv) page_mapping in
  status r = 200
  ∧ header "Content-Type" r = Some "text/html; charset=utf-8"
  ∧ body r = encode_utf8 page
  ∧ page = concat_str (convert page_mapping <$> tokens (index_template srv))
  ∧ concat_str (source <$> tokens (index_template srv)) = index_template srv
  ∧ convert page_mapping
      <$> [TBraced "WS_PORT"; TBraced "WIDTH"; TBraced "HEIGHT";
           TBraced "COLOR"; TBraced "BGCOLOR";
           TNamed "WS_PORT"; TNamed "WIDTH"; TNamed "HEIGHT";
           TNamed "COLOR"; TNamed "BGCOLOR"; TEscaped]
    = ["8084"; "640"; "480"; "#444"; "#333";
       "8084"; "640"; "480"; "#444"; "#333"; "$"]
  ∧ (∀ n, page_mapping !! n = None ->
       convert page_mapping (TNamed n) = "$" +:+ n
       ∧ convert page_mapping (TBraced n) = "${" +:+ n +:+ "}")
  ∧ (Forall (provided page_mapping) (tokens (index_template srv)) ->
       has_dollar page = false ∧ has_placeholder page = false)
  ∧ (let render := λ t, safe_substitute t page_mapping in
     let value := λ n, py_str <$> page_mapping !! n in
     let names := ["WS_PORT"; "WIDTH"; "HEIGHT"; "COLOR"; "BGCOLOR"] in
     value <$> names
     = [Some "8084"; Some "640"; Some "480"; Some "#444"; Some "#333"]
     ∧ is_identifier <$> names = [true; true; true; true; true]
     ∧ (∀ n, is_Some (page_mapping !! n) ↔ n ∈ names)
     ∧ render "" = ""
     ∧ (∀ c t, c ≠ "$"%char -> render (String c t) = String c (render t))
     ∧ (∀ t, render ("$$" +:+ t) = "$" +:+ render t)
     ∧ (∀ n t, is_identifier n = true ->
          render ("${" +:+ n +:+ "}" +:+ t)
          = default ("${" +:+ n +:+ "}") (value n) +:+ render t)
     ∧ (∀ n t, is_identifier n = true -> continues t = false ->
          render ("$" +:+ n +:+ t)
          = default ("$" +:+ n) (value n) +:+ render t)
     ∧ (∀ l, well_written l = true ->
          index_template srv = concat_str (source <$> l) ->
          tokens (index_template srv) = l
          ∧ page = concat_str (convert page_mapping <$> l))
     ∧ render ("<style>body{color:$COLOR;background:${BGCOLOR}}</style>"
               +:+ "<canvas width=${WIDTH} height=$HEIGHT></canvas>"
               +:+ "<script>open('ws://' + host + ':${WS_PORT}/', '$$')"
               +:+ "</script>")
       = "<style>body{color:#444;background:#333}</style>"
         +:+ "<canvas width=640 height=480></canvas>"
         +:+ "<script>open('ws://' + host + ':8084/', '$')</script>").
Proof.
  cbv zeta.
  rewrite (handle_served srv now "GET" "/index.html"
             "text/html; charset=utf-8"
             (safe_substitute (index_template srv) page_mapping))
    by done.
  do 4 (split; [done|]).
  split; [apply tokens_source|]. split; [done|]. split; [|split].
  - intros n Hn. cbn. by rewrite Hn.
  - intros Hprov.
    assert (Hd : has_dollar
                   (safe_substitute (index_template srv) page_mapping)
                 = false).
    { apply substituted_no_dollar;
        [apply page_mapping_values|apply scan_plain|done]. }
    split; [done|]. by apply scan_no_dollar.
  - split; [done|]. split; [done|]. split.
    { intros n. unfold page_mapping.
      rewrite !lookup_insert_is_Some, lookup_empty, is_Some_alt.
      rewrite !elem_of_cons, elem_of_nil. split.
      - intuition (subst; auto).
      - intros Hn. destruct_or!; try done; subst n;
          repeat first [by left|right; split; [done|]]. }
    split; [done|].
    split; [intros c t Hc; by apply safe_substitute_literal|].
    split; [apply safe_substitute_escaped|].
    split.
    { intros n t Hn. rewrite safe_substitute_braced by done.
      by destruct (page_mapping !! n). }
    split.
    { intros n t Hn Ht. rewrite safe_substitute_named by done.
      by destruct (page_mapping !! n). }
    split; [|by vm_compute].
    intros l Hl Hsrc. unfold safe_substitute.
    rewrite Hsrc, (tokens_written l Hl). done.
Qed.

End PageServer.

(** C7, against the claim: the page keeps a placeholder the handler has no
    value for; and in a page that names configured values only, an escaped
    delimiter leaves the text of a placeholder behind. *)
Lemma unknown_placeholder_remains :
  Http.body (Http.handle "BaseHTTP/0.6 Python/3" "Mon, 02 Nov 2026 09:00:00 GMT"
               Http.sample_error_page Http.sample_server
               "Mon, 02 Nov 2026 09:00:00 GMT"
               {| Http.command := "GET"; Http.path := "/index.html" |})
  = encode_utf8 "<title>${TITLE}</title><canvas width=640 height=480>"
  ∧ Template.has_placeholder
      "<title>${TITLE}</title><canvas width=640 height=480>" = true
  ∧ Http.body (Http.handle "BaseHTTP/0.6 Python/3"
                 "Mon, 02 Nov 2026 09:00:00 GMT"
                 Http.sample_error_page Http.escaping_server
                 "Mon, 02 Nov 2026 09:00:00 GMT"
                 {| Http.command := "GET"; Http.path := "/index.html" |})
    = encode_utf8 "<!-- ${WIDTH} is the width --><canvas width=640>"
  ∧ Template.has_placeholder
      "<!-- ${WIDTH} is the width --><canvas width=640>" = true.
Proof. repeat split; reflexivity. Qed.

(** C9, against the claim: the redirect has no [Content-Length] and no
    [Last-Modified], and the 404 has no [Last-Modified]. *)
Lemma redirect_lacks_length_and_date :
  Http.header "Content-Length"
    (Http.handle "BaseHTTP/0.6 Python/3" "Mon, 02 Nov 2026 09:00:00 GMT"
       Http.sample_error_page Http.sample_server
       "Mon, 02 Nov 2026 09:00:00 GMT"
       {| Http.command := "GET"; Http.path := "/" |}) = None
  ∧ Http.header "Last-Modified"
      (Http.handle "BaseHTTP/0.6 Python/3" "Mon, 02 Nov 2026 09:00:00 GMT"
         Http.sample_error_page Http.sample_server
         "Mon, 02 Nov 2026 09:00:00 GMT"
         {| Http.command := "GET"; Http.path := "/" |}) = None
  ∧ Http.header "Last-Modified"
      (Http.handle "BaseHTTP/0.6 Python/3" "Mon, 02 Nov 2026 09:00:00 GMT"
         Http.sample_error_page Http.sample_server
         "Mon, 02 Nov 2026 09:00:00 GMT"
         {| Http.command := "GET"; Http.path := "/stream" |}) = None.
Proof. repeat split; reflexivity. Qed.

(** * Further properties of the code *)

(** ** The header record and the page server *)

Section MoreOfThePages.

Import Struct Template Http.

Variables (version_string date_time_string : str).
Variable error_page : Z -> str -> str.

Local Abbreviation handle := (Http.handle version_string date_time_string error_page).

Lemma pack_4s_length (magic : bytes) : length (pack_4s magic) = 4%nat.
Proof.
  unfold pack_4s. rewrite length_take, length_app, length_replicate. lia.
Qed.

Lemma pack_H_is_Some (v : Z) : is_Some (pack_H v) ↔ 0 <= v <= 65535.
Proof.
  unfold pack_H.
  destruct (Z.leb_spec 0 v), (Z.leb_spec v 65535); cbn;
    (split; [intros [? ?]; (done || lia)|intros ?; (by eexists) || lia]).
Qed.

(** X1.  Packing the header succeeds exactly when both dimensions fit in
    16 bits; the record is then eight bytes whatever the length of the
    magic, and unpacks to the magic cut or padded to four bytes and the two
    dimensions. *)
Theorem header_pack_unpack (magic : bytes) (w h : Z) :
  (is_Some (JSMPEG_HEADER_pack magic w h)
   ↔ 0 <= w <= 65535 ∧ 0 <= h <= 65535)
  ∧ ∀ hdr, JSMPEG_HEADER_pack magic w h = Some hdr ->
      length hdr = 8%nat
      ∧ JSMPEG_HEADER_unpack hdr = Some (pack_4s magic, w, h).
Proof.
  split.
  - rewrite <- !pack_H_is_Some. unfold JSMPEG_HEADER_pack.
    destruct (pack_H w) as [bw|], (pack_H h) as [bh|]; cbn;
      split; try (intros [? ?]; done); try (intros [[? ?] [? ?]]; done).
    all: intros _; split; by eexists.
  - intros hdr Hp.
    assert (Hw : 0 <= w <= 65535).
    { apply pack_H_is_Some. unfold JSMPEG_HEADER_pack in Hp.
      destruct (pack_H w); [by eexists|done]. }
    assert (Hh : 0 <= h <= 65535).
    { apply pack_H_is_Some. unfold JSMPEG_HEADER_pack in Hp.
      destruct (pack_H w); [|done]. cbn in Hp.
      destruct (pack_H h); [by eexists|done]. }
    destruct (header_roundtrip (pack_4s magic) w h)
      as (hdr' & Hp' & Hl & Hu); [apply pack_4s_length|done..|].
    assert (Hidem : pack_4s (pack_4s magic) = pack_4s magic).
    { unfold pack_4s at 1. apply take_app_length'. by rewrite pack_4s_length. }
    unfold JSMPEG_HEADER_pack in Hp, Hp'. rewrite Hidem in Hp'.
    rewrite Hp in Hp'. by injection Hp' as <-.
Qed.

(** X2.  A [HEAD] request is answered with the status and the headers of
    the [GET] of the same path, and with no body. *)
Theorem head_is_get_without_body (srv : server) (now p : str) :
  let get := handle srv now {| command := "GET"; path := p |} in
  let head := respond version_string date_time_string error_page "HEAD"
                (do_HEAD srv now {| command := "HEAD"; path := p |}) in
  status head = status get ∧ headers head = headers get ∧ body head = [].
Proof.
  cbv zeta. unfold do_HEAD.
  change (respond version_string date_time_string error_page "HEAD"
            (do_GET srv now {| command := "HEAD"; path := p |}))
    with (handle srv now {| command := "HEAD"; path := p |}).
  destruct (String.eqb_spec p "/") as [->|Hp]; [done|].
  destruct (route srv p) as [[ct content]|] eqn:Hr.
  - by rewrite !(handle_served _ _ _ _ _ _ _ ct content).
  - by rewrite !handle_not_found.
Qed.

(** X3.  No [GET] is answered with a [Content-Length] other than the
    length of the body written: the header gives that length in decimal,
    or, for the redirect only, is absent with an empty body. *)
Theorem get_length_is_body_length (srv : server) (now p : str) :
  let r := handle srv now {| command := "GET"; path := p |} in
  (p = "/" ∧ header "Content-Length" r = None ∧ body r = [])
  ∨ (p ≠ "/" ∧ header "Content-Length" r = Some (decimal (length (body r)))).
Proof.
  cbv zeta. destruct (String.eqb_spec p "/") as [->|Hp]; [by left|right].
  split; [done|].
  destruct (route srv p) as [[ct content]|] eqn:Hr.
  - by rewrite (handle_served _ _ _ _ _ _ _ ct content).
  - by rewrite handle_not_found.
Qed.

Lemma scan_literal (fuel : nat) (s : str) (mapping : gmap string pyval) :
  has_dollar s = false ->
  convert mapping <$> scan fuel s = source <$> scan fuel s.
Proof.
  revert s. induction fuel as [|fuel IH]; intros s; [done|].
  destruct s as [|c rest]; [done|]. cbn.
  destruct (Ascii.eqb c "$"); [done|]. cbn. intros Hd. by rewrite IH.
Qed.

(** X4.  A page template without a [$] is served as it was read, byte for
    byte, whatever the configuration holds. *)
Theorem plain_page_is_served_unchanged (srv : server) (now : str) :
  has_dollar (index_template srv) = false ->
  safe_substitute (index_template srv) page_mapping = index_template srv
  ∧ body (handle srv now {| command := "GET"; path := "/index.html" |})
    = encode_utf8 (index_template srv).
Proof.
  intros Hd.
  assert (Hs : safe_substitute (index_template srv) page_mapping
               = index_template srv).
  { unfold safe_substitute, tokens. rewrite scan_literal by done.
    by apply scan_source. }
  split; [done|].
  rewrite (handle_served _ _ _ srv now "GET" "/index.html"
             "text/html; charset=utf-8"
             (safe_substitute (index_template srv) page_mapping)) by done.
  cbn. by rewrite Hs.
Qed.

End MoreOfThePages.

Lemma plain_page_is_served_unchanged_witness :
  Template.safe_substitute "<canvas id=video></canvas>" Http.page_mapping
  = "<canvas id=video></canvas>"
  ∧ Http.body
      (Http.handle "BaseHTTP/0.6 Python/3" "Mon, 02 Nov 2026 09:00:00 GMT"
         Http.sample_error_page
         {| Http.index_template := "<canvas id=video></canvas>";
            Http.jsmpg_content := "var jsmpeg;" |}
         "Mon, 02 Nov 2026 09:00:00 GMT"
         {| Http.command := "GET"; Http.path := "/index.html" |})
    = encode_utf8 "<canvas id=video></canvas>".
Proof.
  apply (plain_page_is_served_unchanged
           "BaseHTTP/0.6 Python/3" "Mon, 02 Nov 2026 09:00:00 GMT"
           Http.sample_error_page
           {| Http.index_template := "<canvas id=video></canvas>";
              Http.jsmpg_content := "var jsmpeg;" |}
           "Mon, 02 Nov 2026 09:00:00 GMT").
  reflexivity.
Defined.

(** ** The relay *)

Section MoreOfTheRelay.

Import Ws4py Relay.

(** X5.  The loop of the relay has no handler of its own.  When
    [broadcast] raises on a chunk, the loop is over at that pass: the read
    handle is closed by [finally], the chunks handed over before are what
    they were, and nothing that the transcoder emits afterwards is read. *)
Theorem relay_ends_when_broadcast_raises {M other : Type}
    (broadcast : bytes -> bool -> M -> option M) (act : other -> M -> M)
    (pre post later : list (event other)) (arrived : bytes) (rc : option Z)
    (s s1 : state M) :
  run broadcast act pre s = Running s1 ->
  take (Z.to_nat 32768) (pipe s1 ++ arrived) ≠ [] ->
  broadcast (take (Z.to_nat 32768) (pipe s1 ++ arrived)) true (manager s1)
    = None ->
  ∃ s',
    run broadcast act (pre ++ Pass arrived rc :: post) s = Raised s'
    ∧ run broadcast act (pre ++ Pass arrived rc :: later) s = Raised s'
    ∧ stdout_closed s' = true
    ∧ chunks s' = chunks s1
    ∧ manager s' = manager s1.
Proof.
  intros Hpre Hbuf Hb. rewrite !run_app, Hpre. cbn [run read1].
  rewrite bool_decide_false by done. cbn [negb]. rewrite Hb.
  by eexists.
Qed.

Lemma relay_ends_when_broadcast_raises_witness :
  ∃ s',
    run (λ (_ : bytes) (_ : bool) (_ : ()), None) (λ (_ : ()) m, m)
        ([Pass [] None] ++ Pass [x01] None :: [Pass [x02] None])
        {| pipe := []; stdout_closed := false; manager := (); chunks := [] |}
    = Raised s'
    ∧ run (λ (_ : bytes) (_ : bool) (_ : ()), None) (λ (_ : ()) m, m)
          ([Pass [] None] ++ Pass [x01] None :: [])
          {| pipe := []; stdout_closed := false; manager := (); chunks := [] |}
      = Raised s'
    ∧ stdout_closed s' = true
    ∧ chunks s' = []
    ∧ manager s' = ().
Proof.
  apply (relay_ends_when_broadcast_raises
           (λ (_ : bytes) (_ : bool) (_ : ()), None) (λ (_ : ()) m, m)
           [Pass [] None] [Pass [x02] None] [] [x01] None
           {| pipe := []; stdout_closed := false; manager := (); chunks := [] |}
           {| pipe := []; stdout_closed := false; manager := (); chunks := [] |}).
  - reflexivity.
  - cbn. discriminate.
  - reflexivity.
Defined.

(** X6.  A viewer accepted in the middle of a run is written the handshake
    and then exactly the chunks read from then on, in order: none of the
    chunks broadcast before it connected, and none missing after. *)
Theorem late_viewer_gets_the_later_chunks
    (pre post : list (event registry_event)) (websockets : registry)
    (fd : nat) (s1 : state registry) :
  serve pre (start websockets) = Running s1 ->
  Forall (quiet fd) post ->
  ∃ new,
    chunks (final (serve (pre ++ Other (Accept fd) :: post)
                     (start websockets)))
    = chunks s1 ++ new
    ∧ manager (final (serve (pre ++ Other (Accept fd) :: post)
                        (start websockets))) !! fd
      = Some {| terminated := false; sock_open := true;
                wire := Binary handshake :: (Binary <$> new) |}.
Proof.
  intros Hpre Hq. unfold serve in *. rewrite run_app, Hpre. cbn [run].
  set (s2 := {| pipe := pipe s1; stdout_closed := stdout_closed s1;
                manager := registry_step StreamingWebSocket.opened
                             (Accept fd) (manager s1);
                chunks := chunks s1 |}).
  destruct (serve_delivers post s2 fd
              {| terminated := false; sock_open := true;
                 wire := [Binary handshake] |})
    as (ws' & new & Hl & [Ht Ho] & Hch & Hw); [|done|done|].
  { unfold s2. cbn [manager registry_step]. unfold add.
    rewrite opened_fresh. apply lookup_insert_eq. }
  exists new. unfold serve in *. split; [done|].
  rewrite Hl. destruct ws' as [t o w]. cbn in *. by subst.
Qed.

Lemma late_viewer_gets_the_later_chunks_witness :
  ∃ new,
    chunks (final (serve ([Pass [x01; x02] None] ++ Other (Accept 5)
                            :: [Pass [x03] None; Pass [] (Some 0)])
                     (start sample_registry)))
    = chunks (final (serve [Pass [x01; x02] None] (start sample_registry)))
      ++ new
    ∧ manager (final (serve ([Pass [x01; x02] None] ++ Other (Accept 5)
                               :: [Pass [x03] None; Pass [] (Some 0)])
                        (start sample_registry))) !! 5%nat
      = Some {| terminated := false; sock_open := true;
                wire := Binary handshake :: (Binary <$> new) |}.
Proof.
  apply (late_viewer_gets_the_later_chunks
           [Pass [x01; x02] None] [Pass [x03] None; Pass [] (Some 0)]
           sample_registry 5
           (final (serve [Pass [x01; x02] None] (start sample_registry)))).
  - reflexivity.
  - repeat constructor.
Defined.

End MoreOfTheRelay.

(** ** The capture loops *)

Section MoreOfTheLoops.

Import Config Control Tally.

Lemma record_all_snoc (scores : list Q) (x : Q) (w : window) :
  record_all (scores ++ [x]) w = record_score x (record_all scores w).
Proof. unfold record_all. by rewrite foldl_app. Qed.

Lemma record_score_ok (score : Q) (w : window) :
  window_ok w ->
  window_ok (record_score score w)
  ∧ mean_NO (record_score score w) = (S (mean_NO w) mod 10)%nat
  ∧ score_mean (record_score score w) = <[mean_NO w := score]> (score_mean w).
Proof.
  intros [Hlen Hn]. unfold window_ok, record_score.
  cbn [mean_NO score_mean]. rewrite length_insert, Hlen.
  destruct (Nat.eqb_spec (S (mean_NO w)) 10) as [He|He].
  - rewrite He, Nat.Div0.mod_same. repeat split; lia.
  - rewrite Nat.mod_small by lia. repeat split; lia.
Qed.

(** The window a loop carries is the one of the scores captured so far. *)
Lemma loop_window {L} (body : Q -> L -> state -> L * state)
    (window_of : L -> window) (schedule : list tick)
    (l l' : L) (s s' : state) :
  (∀ score l s, window_of (body score l s).1
                = record_score score (window_of l)) ->
  loop body schedule l s = Looping l' s' ->
  window_of l' = record_all (captures schedule) (window_of l).
Proof.
  intros Hbody. revert l s.
  induction schedule as [|[c|score| |] schedule IH]; intros l s;
    cbn [loop].
  - destruct (whileMove s); [|done]. by intros [= <- _].
  - apply IH.
  - destruct (whileMove s); [|done].
    pose proof (Hbody score l s) as Hw.
    destruct (body score l s) as [l1 s1]. cbn in Hw.
    intros ->%IH. by rewrite Hw.
  - done.
  - done.
Qed.

(** X7.  The score window is a ring of ten slots.  After any number of
    iterations the index of the next slot is the number of scores modulo
    ten, so the assignment [score_mean[mean_NO] = score[0]] never falls
    outside the array; each of the last ten scores sits in the slot of its
    rank modulo ten; a slot not written yet still holds zero. *)
Theorem window_holds_the_last_ten (scores : list Q) :
  window_ok (record_all scores zeros)
  ∧ mean_NO (record_all scores zeros) = (length scores mod 10)%nat
  ∧ (∀ i score, scores !! i = Some score -> (length scores ≤ i + 10)%nat ->
       score_mean (record_all scores zeros) !! (i mod 10)%nat = Some score)
  ∧ (∀ j, (length scores ≤ j < 10)%nat ->
       score_mean (record_all scores zeros) !! j = Some 0%Q)
  ∧ (∀ schedule s l' s',
       captures schedule = scores ->
       loop main_body schedule locals0 s = Looping l' s' ->
       win l' = record_all scores zeros)
  ∧ (∀ schedule s w' s',
       captures schedule = scores ->
       loop autoLook_body schedule zeros s = Looping w' s' ->
       w' = record_all scores zeros).
Proof.
  assert (Hloops :
    (∀ schedule s l' s',
       captures schedule = scores ->
       loop main_body schedule locals0 s = Looping l' s' ->
       win l' = record_all scores zeros)
    ∧ (∀ schedule s w' s',
         captures schedule = scores ->
         loop autoLook_body schedule zeros s = Looping w' s' ->
         w' = record_all scores zeros)).
  { split.
    - intros schedule s l' s' <- Hl.
      by apply (loop_window main_body win) in Hl.
    - intros schedule s w' s' <- Hl.
      by apply (loop_window autoLook_body id) in Hl. }
  cut (window_ok (record_all scores zeros)
       ∧ mean_NO (record_all scores zeros) = (length scores mod 10)%nat
       ∧ (∀ i score, scores !! i = Some score ->
            (length scores ≤ i + 10)%nat ->
            score_mean (record_all scores zeros) !! (i mod 10)%nat
            = Some score)
       ∧ (∀ j, (length scores ≤ j < 10)%nat ->
            score_mean (record_all scores zeros) !! j = Some 0%Q)).
  { intros (? & ? & ? & ?). destruct Hloops. done. }
  clear Hloops.
  induction scores as [|x scores IH] using rev_ind.
  - split; [split; [done|cbn; lia]|]. split; [done|]. split.
    + intros i score Hi. by rewrite lookup_nil in Hi.
    + intros j Hj. unfold record_all, zeros. cbn [foldl score_mean].
      apply lookup_replicate_2. lia.
  - destruct IH as (Hok & Hn & Hlast & Hzero).
    destruct (record_score_ok x _ Hok) as (Hok' & Hn' & Hsm).
    rewrite record_all_snoc, length_app. cbn [length].
    split; [done|]. split; [|split].
    + rewrite Hn', Hn.
      rewrite <- Nat.Div0.add_mod_idemp_l.
      replace (length scores mod 10 + 1)%nat
        with (S (length scores mod 10)) by lia.
      done.
    + intros i score Hi Hrecent. rewrite Hsm, Hn.
      destruct (decide (i = length scores)) as [->|Hne].
      * rewrite lookup_app_r, Nat.sub_diag in Hi by lia.
        injection Hi as <-.
        apply list_lookup_insert_eq. destruct Hok as [-> _].
        apply Nat.mod_upper_bound. lia.
      * assert (Hlt : (i < length scores)%nat).
        { apply lookup_lt_Some in Hi. rewrite length_app in Hi.
          cbn in Hi. lia. }
        rewrite lookup_app_l in Hi by done.
        rewrite list_lookup_insert_ne.
        -- apply Hlast; [done|lia].
        -- intros Heq.
           pose proof (Nat.div_mod_eq i 10).
           pose proof (Nat.div_mod_eq (length scores) 10).
           pose proof (Nat.mod_upper_bound i 10).
           pose proof (Nat.mod_upper_bound (length scores) 10).
           nia.
    + intros j Hj. rewrite Hsm, Hn.
      rewrite list_lookup_insert_ne.
      * apply Hzero. lia.
      * rewrite Nat.mod_small by lia. lia.
Qed.

End MoreOfTheLoops.

Section MoreOfTheRuns.

Import Config Control Tally.

Lemma main_body_scorelist (score : Q) (l : locals) (s : state) :
  (length (scorelist l) ≤ 1)%nat ->
  scorelist (main_body score l s).1
  = [np_mean (score_mean (record_score score (win l)))].
Proof.
  intros Hlen. unfold main_body. cbn [fst scorelist].
  destruct (scorelist l) as [|prev [|? ?]]; [done|done|cbn in Hlen; lia].
Qed.

(** X8.  In the loop of [main] the list of earlier means never grows past
    one entry: after an iteration it holds the mean just computed and
    nothing else, so the steadiness test compares a mean with the one of
    the iteration before only; and [scorecheck] is true again when an
    iteration is over. *)
Theorem main_keeps_one_earlier_mean
    (schedule : list tick) (s : state) (l' : locals) (s' : state) :
  loop main_body schedule locals0 s = Looping l' s' ->
  (length (scorelist l') ≤ 1)%nat
  ∧ scorecheck l' = true
  ∧ (captures schedule ≠ [] ->
     scorelist l' = [np_mean (score_mean (win l'))]).
Proof.
  intros Hloop.
  pose (Inv := λ (first : bool) (l : locals),
    (length (scorelist l) ≤ 1)%nat ∧ scorecheck l = true
    ∧ (first = false -> scorelist l = [np_mean (score_mean (win l))])).
  assert (Hstep : ∀ score l s b, Inv b l -> Inv false (main_body score l s).1).
  { intros score l s0 b (Hlen & _ & _).
    pose proof (main_body_scorelist score l s0 Hlen) as Hsl.
    unfold Inv. rewrite Hsl. by repeat split. }
  assert (Hgen : ∀ schedule b l s l' s',
    Inv b l -> loop main_body schedule l s = Looping l' s' ->
    Inv (b && bool_decide (captures schedule = [])) l').
  { clear -Hstep. induction schedule as [|[c|score| |] schedule IH];
      intros b l s l' s' Hl; cbn [loop].
    - destruct (whileMove s); [|done]. intros [= <- _].
      by rewrite andb_true_r.
    - change (captures (External c :: schedule)) with (captures schedule).
      by apply IH.
    - destruct (whileMove s); [|done].
      pose proof (Hstep score l s b Hl) as Hl1.
      destruct (main_body score l s) as [l1 s1]. cbn [fst] in Hl1.
      intros Hloop.
      change (captures (Capture score :: schedule))
        with (score :: captures schedule).
      rewrite bool_decide_false, andb_false_r by done.
      by apply (IH false l1 s1 l' s') in Hloop.
    - done.
    - done. }
  destruct (Hgen schedule true locals0 s l' s') as (Hlen & Hc & Hsl);
    [unfold Inv; repeat split; (cbn; lia) || done|done|].
  split; [done|]. split; [done|].
  intros Hne. apply Hsl. cbn. by apply bool_decide_eq_false.
Qed.

Lemma main_keeps_one_earlier_mean_witness :
  let l' := locals_of locals0
              (loop main_body [Capture 70; Capture 80] locals0 initial) in
  (length (scorelist l') ≤ 1)%nat
  ∧ scorecheck l' = true
  ∧ (captures [Capture 70; Capture 80] ≠ [] ->
     scorelist l' = [np_mean (score_mean (win l'))]).
Proof.
  apply (main_keeps_one_earlier_mean [Capture 70; Capture 80] initial
           (locals_of locals0
              (loop main_body [Capture 70; Capture 80] locals0 initial))
           (state_of
              (loop main_body [Capture 70; Capture 80] locals0 initial))).
  reflexivity.
Defined.

Lemma attempt_Forall (P : effect -> Prop) (fails : effect -> bool)
    (steps : list effect) :
  Forall P steps -> Forall P (attempt fails steps).1.
Proof.
  induction 1 as [|e steps He _ IH]; cbn; [done|].
  destruct (fails e); cbn; [by repeat constructor|].
  destruct (attempt fails steps). cbn in *. by constructor.
Qed.

Lemma main_body_trace (score : Q) (l : locals) (s : state) :
  water (main_body score l s).2 = water s
  ∧ ∃ new, trace (main_body score l s).2 = trace s ++ new
           ∧ Forall (λ e, foreign_to_main e = false) new.
Proof.
  split; [apply main_body_keeps_water|].
  unfold main_body. cbn [snd].
  destruct (if forallb _ _ then _ else _).
  2: { exists []. by rewrite app_nil_r. }
  destruct (look s); cbn; destruct (_ && _); cbn;
    [exists [sendSlack LOOK_COMMENT; look_False; sendSlack WATER_COMMENT]
    |exists [sendSlack LOOK_COMMENT; look_False]
    |exists [sendSlack WATER_COMMENT]
    |exists []];
    rewrite <- ?app_assoc, ?app_nil_r; (split; [done|by repeat constructor]).
Qed.

Lemma main_loop_trace (schedule : list tick) (l : locals) (s : state) :
  (Forall (λ t, ∀ b, t ≠ External (call_setWater b)) schedule ->
   water (state_of (loop main_body schedule l s)) = water s)
  ∧ ∃ new, trace (state_of (loop main_body schedule l s)) = trace s ++ new
           ∧ Forall (λ e, foreign_to_main e = false) new.
Proof.
  revert l s. induction schedule as [|[c|score| |] schedule IH]; intros l s;
    cbn [loop].
  - split; [by destruct (whileMove s)|].
    exists []. rewrite app_nil_r. by destruct (whileMove s).
  - destruct (IH l (apply_call c s)) as [Hw (new & Ht & Hnew)]. split.
    + intros [Hc Hq]%Forall_cons. rewrite Hw by done.
      destruct c as [b|b|b]; [done| |done]. by destruct (Hc b).
    + exists new. split; [|done]. rewrite Ht. by destruct c.
  - destruct (whileMove s).
    2: { split; [done|]. exists []. by rewrite app_nil_r. }
    destruct (main_body_trace score l s) as [Hw1 (new1 & Ht1 & Hnew1)].
    destruct (main_body score l s) as [l1 s1]. cbn [snd] in *.
    destruct (IH l1 s1) as [Hw (new & Ht & Hnew)]. split.
    + intros [_ Hq]%Forall_cons. by rewrite Hw, Hw1.
    + exists (new1 ++ new). rewrite Ht, Ht1, <- app_assoc.
      split; [done|]. by apply Forall_app.
  - split; [done|]. exists []. by rewrite app_nil_r.
  - split; [done|]. exists []. by rewrite app_nil_r.
Qed.

Lemma finish_trace {L} (fails : effect -> bool) (e : loop_end L) :
  water (reached (finish fails e)) = water (state_of e)
  ∧ look (reached (finish fails e)) = look (state_of e)
  ∧ ∃ steps, trace (reached (finish fails e)) = trace (state_of e) ++ steps
             ∧ Forall (λ x, x = whileMove_True ∨ x ∈ cleanup) steps.
Proof.
  assert (Hc : Forall (λ x, x = whileMove_True ∨ x ∈ cleanup)
                 (attempt fails cleanup).1).
  { apply attempt_Forall. apply Forall_forall. auto. }
  destruct e as [l s|s|s|s]; cbn.
  - repeat split. exists []. by rewrite app_nil_r.
  - unfold finally. destruct (attempt fails cleanup) as [called raised].
    cbn in *. repeat split. exists (whileMove_True :: called).
    rewrite <- app_assoc. split; [done|]. constructor; auto.
  - unfold finally. destruct (attempt fails cleanup) as [called raised].
    cbn in *. repeat split. exists (whileMove_True :: called).
    rewrite <- app_assoc. split; [done|]. constructor; auto.
  - unfold finally. destruct (attempt fails cleanup) as [called raised].
    cbn in *. repeat split. exists (whileMove_True :: called).
    rewrite <- app_assoc. split; [done|]. constructor; auto.
Qed.

Lemma cleanup_step_kinds (x : effect) :
  x = whileMove_True ∨ x ∈ cleanup ∨ x ∈ startup ->
  foreign_to_main x = false ∧ is_notification x = false.
Proof.
  unfold cleanup, startup.
  rewrite !elem_of_cons, !elem_of_nil. intros H.
  destruct_or!; by subst.
Qed.

(** X9.  A run of [main] never sends the comment that the soil is wet
    enough and never assigns [water]: whatever the scores, the requests and
    the way the run ends, neither shows in what the run adds to the trace,
    and when no call of [setWater] comes from outside the flag is at the
    end what it was at the start. *)
Theorem main_never_reports_wet_soil
    (fails : effect -> bool) (schedule : list tick) (s0 : state) :
  (Forall (λ t, ∀ b, t ≠ External (call_setWater b)) schedule ->
   getWater (reached (main fails schedule s0)) = getWater s0)
  ∧ ∃ new, trace (reached (main fails schedule s0)) = trace s0 ++ new
           ∧ Forall (λ e, foreign_to_main e = false) new.
Proof.
  unfold main, getWater.
  destruct (finish_trace fails
              (loop main_body schedule locals0 (emit startup s0)))
    as (Hw & _ & steps & Ht & Hsteps).
  destruct (main_loop_trace schedule locals0 (emit startup s0))
    as (Hw' & new & Ht' & Hnew).
  split.
  - intros Hq. by rewrite Hw, Hw'.
  - exists (startup ++ new ++ steps).
    rewrite Ht, Ht'. cbn [trace emit]. rewrite <- !app_assoc.
    split; [done|]. repeat apply Forall_app_2; [|done|].
    + apply Forall_forall. intros x Hx.
      destruct (cleanup_step_kinds x) as [? _]; [tauto|done].
    + eapply Forall_impl; [done|]. intros x Hx. cbv beta in Hx.
      destruct (cleanup_step_kinds x) as [? _]; [tauto|done].
Qed.

Lemma notifications_app (a b : list effect) :
  notifications (a ++ b) = (notifications a + notifications b)%nat.
Proof. unfold notifications. by rewrite filter_app, length_app. Qed.

Lemma notifications_quiet (l : list effect) :
  Forall (λ e, is_notification e = false) l -> notifications l = 0%nat.
Proof.
  unfold notifications. induction 1 as [|e l He _ IH]; [done|].
  rewrite filter_cons_False; [done|]. by rewrite He.
Qed.

(** An iteration of [autoLook] turns one pending intent into one
    notification, or does nothing. *)
Lemma autoLook_body_balance (score : Q) (w : window) (s : state) :
  (notifications (trace (autoLook_body score w s).2)
   + pending (autoLook_body score w s).2
   = notifications (trace s) + pending s)%nat.
Proof.
  unfold autoLook_body, pending. cbn [snd].
  destruct (look s) eqn:Hl; [|destruct (water s) eqn:Hw].
  - unfold setLook, emit. cbn [trace look water].
    rewrite notifications_app.
    change (notifications [sendSlack LOOK_COMMENT; look_False]) with 1%nat.
    destruct (water s); lia.
  - destruct (dry _); unfold setWater, emit; cbn [trace look water];
      rewrite Hl, !notifications_app.
    + change (notifications [sendSlack WATER_COMMENT]) with 1%nat.
      change (notifications [water_False]) with 0%nat. lia.
    + change (notifications [sendSlack NOT_WATER_COMMENT]) with 1%nat.
      change (notifications [water_False]) with 0%nat. lia.
  - rewrite Hl, Hw. lia.
Qed.

Lemma apply_call_balance (c : call) (s : state) :
  trace (apply_call c s) = trace s
  ∧ (pending (apply_call c s)
     ≤ pending s + (if is_request (External c) then 1 else 0))%nat.
Proof.
  split; [by destruct c|].
  unfold pending.
  destruct c as [b|[|]|[|]]; cbn; destruct (look s), (water s); cbn; lia.
Qed.

Lemma requests_cons (t : tick) (schedule : list tick) :
  requests (t :: schedule)
  = ((if is_request t then 1 else 0) + requests schedule)%nat.
Proof.
  unfold requests. rewrite filter_cons.
  destruct (is_request t); by case_decide.
Qed.

Lemma autoLook_loop_balance (schedule : list tick) (w : window) (s : state) :
  (notifications (trace (state_of (loop autoLook_body schedule w s)))
   + pending (state_of (loop autoLook_body schedule w s))
   ≤ notifications (trace s) + pending s + requests schedule)%nat.
Proof.
  revert w s. induction schedule as [|[c|score| |] schedule IH]; intros w s;
    cbn [loop].
  - destruct (whileMove s); cbn; lia.
  - destruct (apply_call_balance c s) as [Ht Hp].
    specialize (IH w (apply_call c s)). rewrite Ht in IH.
    rewrite requests_cons. lia.
  - rewrite requests_cons. cbn [is_request].
    destruct (whileMove s); [|cbn; lia].
    pose proof (autoLook_body_balance score w s) as Hb.
    destruct (autoLook_body score w s) as [w1 s1]. cbn [snd] in Hb.
    specialize (IH w1 s1). lia.
  - cbn. lia.
  - cbn. lia.
Qed.

(** X10.  A run of [autoLook] notifies on request only: the notifications
    sent, together with the intents still pending at the end, never
    outnumber the intents pending at the start and the calls that set one
    during the run.  An intent is answered at most once, and nothing is
    sent that was not asked for. *)
Theorem autoLook_notifies_on_request_only
    (fails : effect -> bool) (schedule : list tick) (s0 : state) :
  (notifications (trace (reached (autoLook fails schedule s0)))
   + pending (reached (autoLook fails schedule s0))
   ≤ notifications (trace s0) + pending s0 + requests schedule)%nat.
Proof.
  unfold autoLook.
  destruct (finish_trace fails
              (loop autoLook_body schedule zeros (emit startup s0)))
    as (Hw & Hl & steps & Ht & Hsteps).
  pose proof (autoLook_loop_balance schedule zeros (emit startup s0)) as Hb.
  unfold pending in *. rewrite Hw, Hl, Ht, notifications_app.
  rewrite (notifications_quiet steps).
  2: { eapply Forall_impl; [done|]. intros x Hx. cbv beta in Hx.
       destruct (cleanup_step_kinds x) as [_ ?]; [tauto|done]. }
  cbn [trace emit look water] in Hb. rewrite notifications_app in Hb.
  rewrite (notifications_quiet startup) in Hb by (by repeat constructor).
  lia.
Qed.

(** X11.  A stop request that arrives while no loop is running is not
    lost: the next run of [main] or [autoLook] finds [whileMove] false at
    its first test, captures nothing and sends nothing, goes through its
    start-up and its cleanup, and leaves the flag true. *)
Theorem stale_stop_ends_the_next_run_at_once
    (fails : effect -> bool) (score : Q) (rest : list tick) (s0 : state) :
  whileMove s0 = false ->
  main fails (Capture score :: rest) s0
  = autoLook fails (Capture score :: rest) s0
  ∧ ∃ s p,
      main fails (Capture score :: rest) s0 = Ended s p
      ∧ getWhileMove s = true
      ∧ getWater s = getWater s0 ∧ getLook s = getLook s0
      ∧ trace s
        = trace s0 ++ startup ++ whileMove_True :: (attempt fails cleanup).1
      ∧ notifications (trace s) = notifications (trace s0).
Proof.
  intros Hw. unfold main, autoLook. cbn [loop emit whileMove].
  rewrite Hw. split; [done|]. cbn [finish]. unfold finally.
  pose proof (attempt_Forall (λ x, x ∈ cleanup) fails cleanup) as Hc.
  destruct (attempt fails cleanup) as [called raised]. cbn [fst] in *.
  eexists _, _. split; [done|].
  unfold getWhileMove, getWater, getLook, setWhileMove, emit.
  cbn [trace whileMove water look].
  rewrite <- !app_assoc. repeat split.
  rewrite !notifications_app.
  rewrite (notifications_quiet startup) by (by repeat constructor).
  rewrite (notifications_quiet [whileMove_True]) by (by repeat constructor).
  rewrite (notifications_quiet called); [lia|].
  eapply Forall_impl; [apply Hc, Forall_forall; auto|].
  intros x Hx. cbv beta in Hx.
  destruct (cleanup_step_kinds x) as [_ ?]; [tauto|done].
Qed.

Lemma stale_stop_ends_the_next_run_at_once_witness :
  main (λ _, false) (Capture 70 :: [Capture 70])
       (setWhileMove false initial)
  = autoLook (λ _, false) (Capture 70 :: [Capture 70])
      (setWhileMove false initial)
  ∧ ∃ s p,
      main (λ _, false) (Capture 70 :: [Capture 70])
           (setWhileMove false initial) = Ended s p
      ∧ getWhileMove s = true
      ∧ getWater s = getWater (setWhileMove false initial)
      ∧ getLook s = getLook (setWhileMove false initial)
      ∧ trace s
        = trace (setWhileMove false initial) ++ startup
          ++ whileMove_True :: (attempt (λ _, false) cleanup).1
      ∧ notifications (trace s)
        = notifications (trace (setWhileMove false initial)).
Proof.
  apply (stale_stop_ends_the_next_run_at_once (λ _, false) 70 [Capture 70]
           (setWhileMove false initial)).
  reflexivity.
Defined.

End MoreOfTheRuns.

(** ** The chat plug-in *)

Section MoreOfThePlugin.

Import Plugin.

(** Whether the plug-in has a loop recorded as on. *)
Local Abbreviation loop_on m := (waterWork m || notWaterWork m).

(** X12.  The two modes exclude each other: however the messages come, the
    plug-in never has water monitoring and normal monitoring both recorded
    as running. *)
Theorem modes_exclude_each_other (hs : list handler) (m : modes) :
  waterWork m && notWaterWork m = false ->
  waterWork (modes_after (converse hs m))
  && notWaterWork (modes_after (converse hs m)) = false.
Proof.
  revert m. induction hs as [|h hs IH]; intros m Hm; [done|].
  cbn [converse modes_after]. apply IH.
  destruct h, m as [[|] [|]]; done.
Qed.

Lemma modes_exclude_each_other_witness :
  waterWork
    (modes_after
       (converse [on_monitoringWater; on_monitoringNotWater; on_check;
                  on_monitoringFinish; on_monitoringNotWater] idle))
  && notWaterWork
       (modes_after
          (converse [on_monitoringWater; on_monitoringNotWater; on_check;
                     on_monitoringFinish; on_monitoringNotWater] idle))
  = false.
Proof.
  apply (modes_exclude_each_other
           [on_monitoringWater; on_monitoringNotWater; on_check;
            on_monitoringFinish; on_monitoringNotWater] idle).
  reflexivity.
Defined.

(** X13.  The plug-in starts a loop only when it has none recorded as
    running and asks for a stop only when it has one: over any
    conversation the calls of [server.main()] and [server.autoLook()]
    alternate with the calls of [server.setWhileMove(False)], and a second
    start is answered by a reply alone. *)
Theorem loops_start_and_stop_in_turn (hs : list handler) (m : modes) :
  waterWork m && notWaterWork m = false ->
  in_step (loop_on m) (calls (converse hs m)) = true
  ∧ ∀ h, loop_on m = true ->
      (h = on_monitoringWater ∨ h = on_monitoringNotWater) ->
      calls (handle h m) = [] ∧ modes_after (handle h m) = m.
Proof.
  intros Hm. split.
  - revert m Hm. induction hs as [|h hs IH]; intros m Hm; [done|].
    cbn [converse calls].
    assert (Hnext : waterWork (modes_after (handle h m))
                    && notWaterWork (modes_after (handle h m)) = false).
    { destruct h, m as [[|] [|]]; done. }
    specialize (IH _ Hnext).
    destruct h, m as [[|] [|]]; try done; cbn in *; by rewrite ?IH.
  - intros h Hon [-> | ->]; destruct m as [[|] [|]]; done.
Qed.

Lemma loops_start_and_stop_in_turn_witness :
  in_step (waterWork idle || notWaterWork idle)
    (calls (converse [on_monitoringWater; on_check; on_monitoringNotWater;
                      on_monitoringFinish; on_water; on_monitoringNotWater;
                      on_monitoringFinish; on_monitoringFinish] idle))
  = true
  ∧ ∀ h, waterWork idle || notWaterWork idle = true ->
      (h = on_monitoringWater ∨ h = on_monitoringNotWater) ->
      calls (handle h idle) = [] ∧ modes_after (handle h idle) = idle.
Proof.
  apply (loops_start_and_stop_in_turn
           [on_monitoringWater; on_check; on_monitoringNotWater;
            on_monitoringFinish; on_water; on_monitoringNotWater;
            on_monitoringFinish; on_monitoringFinish] idle).
  reflexivity.
Defined.

(** X14.  Which messages reach the server.  [setWater(True)] is called for
    a watering question unless water monitoring is on; [setLook(True)] for
    every look question; and a single check is started by a watering
    question when no mode is on, and by a look question whenever normal
    monitoring is off -- so also while the loop of water monitoring is
    running. *)
Theorem what_reaches_the_server (h : handler) (m : modes) :
  (server_setWater true ∈ calls (handle h m)
   ↔ h = on_water ∧ waterWork m = false)
  ∧ (server_setLook true ∈ calls (handle h m) ↔ h = on_check)
  ∧ (server_single ∈ calls (handle h m)
     ↔ (h = on_water ∧ waterWork m = false ∧ notWaterWork m = false)
       ∨ (h = on_check ∧ notWaterWork m = false))
  ∧ (∀ b, server_setWhileMove b ∈ calls (handle h m)
          -> b = false ∧ h = on_monitoringFinish ∧ loop_on m = true).
Proof.
  split; [|split; [|split]]; [| | |intros b];
    destruct h, m as [[|] [|]]; cbn;
    rewrite ?elem_of_cons, ?elem_of_nil;
    intuition (try discriminate; try congruence).
Qed.

End MoreOfThePlugin.

Section MainRepeats.

Import Config Control Tally.

Lemma emit_emit (a b : list effect) (s : state) :
  emit b (emit a s) = emit (a ++ b) s.
Proof. unfold emit. cbn. by rewrite app_assoc. Qed.

Lemma main_body_steady_and_dry (score : Q) (l : locals) (s : state) :
  look s = false -> whileMove s = true -> steady_and_dry score l = true ->
  main_body score l s
  = ((main_body score l initial).1, emit [sendSlack WATER_COMMENT] s).
Proof.
  unfold steady_and_dry. intros Hl Hw [[Hc Hn]%andb_true_iff Hd]%andb_true_iff.
  unfold main_body. cbn [fst]. by rewrite Hn, Hc, Hl, Hw, Hd.
Qed.

Lemma loop_steady_and_dry (scores : list Q) (rest : list tick)
    (l : locals) (s : state) :
  look s = false -> whileMove s = true ->
  all_steady_and_dry scores l = true ->
  loop main_body ((Capture <$> scores) ++ rest) l s
  = loop main_body rest (main_locals scores l)
      (emit (replicate (length scores) (sendSlack WATER_COMMENT)) s).
Proof.
  revert l s. induction scores as [|score scores IH]; intros l s Hl Hw Ha.
  - cbn. f_equal. destruct s. unfold emit. cbn. by rewrite app_nil_r.
  - cbn [all_steady_and_dry] in Ha. apply andb_true_iff in Ha as [H1 Ha].
    cbn [fmap list_fmap app loop]. rewrite Hw.
    rewrite main_body_steady_and_dry by done.
    rewrite IH by done. by rewrite emit_emit.
Qed.

Lemma notifications_replicate (n : nat) (c : comment) :
  notifications (replicate n (sendSlack c)) = n.
Proof.
  induction n as [|n IH]; [done|]. cbn [replicate].
  change (sendSlack c :: replicate n (sendSlack c))
    with ([sendSlack c] ++ replicate n (sendSlack c)).
  by rewrite notifications_app, IH.
Qed.

Lemma requests_dry_run (n : nat) : requests (dry_run n) = 0%nat.
Proof.
  induction n as [|n IH]; [done|]. cbn [dry_run].
  unfold requests in *. by rewrite filter_app, length_app, IH.
Qed.

Lemma loop_dry_run (n : nat) (rest : list tick) (l : locals) (s : state) :
  l = locals0 ∨ l = main_locals dry_cycle locals0 ->
  look s = false -> whileMove s = true ->
  ∃ l', loop main_body (dry_run n ++ rest) l s
        = loop main_body rest l'
            (emit (replicate (10 * n) (sendSlack WATER_COMMENT)) s).
Proof.
  revert l s. induction n as [|n IH]; intros l s Hl Hlook Hw.
  - exists l. cbn. f_equal. destruct s. unfold emit. cbn.
    by rewrite app_nil_r.
  - cbn [dry_run]. rewrite <- app_assoc.
    rewrite loop_steady_and_dry; [|done|done|].
    2: { by destruct Hl as [-> | ->]; vm_compute. }
    destruct (IH (main_locals dry_cycle l)
                (emit (replicate (length dry_cycle)
                         (sendSlack WATER_COMMENT)) s))
      as [l' Hl']; [|done|done|].
    { right. by destruct Hl as [-> | ->]; vm_compute. }
    exists l'. rewrite Hl', emit_emit, <- replicate_add.
    do 3 f_equal. cbn [dry_cycle length]. rewrite length_replicate. lia.
Qed.

(** X16.  The notices of water monitoring are not bounded by anything the
    chat asks: over [n] rounds of ten iterations whose mean stays at 7,
    [main] sends [10 * n] notifications, all of them the notice that
    watering is needed, while no intent was ever set. *)
Theorem main_repeats_the_watering_notice (n : nat) :
  requests (dry_run n) = 0%nat
  ∧ ∃ s,
      main (λ _, false) (dry_run n ++ [External (call_setWhileMove false)])
           initial
      = Ended s false
      ∧ notifications (trace s) = (10 * n)%nat
      ∧ Forall (λ e, is_notification e = true -> e = sendSlack WATER_COMMENT)
          (trace s).
Proof.
  split; [apply requests_dry_run|].
  unfold main.
  destruct (loop_dry_run n [External (call_setWhileMove false)] locals0
              (emit startup initial)) as [l' ->]; [by left|done|done|].
  cbn [loop apply_call]. eexists. split; [reflexivity|].
  cbn [trace emit setWhileMove initial app]. split.
  - rewrite !notifications_app, notifications_replicate.
    rewrite (notifications_quiet startup) by (by repeat constructor).
    rewrite (notifications_quiet [whileMove_True]) by (by repeat constructor).
    rewrite (notifications_quiet (_ :: _)) by (by repeat constructor).
    lia.
  - repeat (apply Forall_app; split); try (by repeat constructor).
    apply Forall_forall. by intros e ->%elem_of_replicate_inv.
Qed.

End MainRepeats.
